(** * pgks: a keystore backed by a PostgreSQL table

    A shallow embedding of the Go package [pgks] (keystore.go and its
    options file) together with a small executable model of what the
    package talks to: the [pgxpool] connection pool and the table behind
    it.  The adapter code is transcribed method by method; the pool and
    the database are the environment it runs against. *)

From Stdlib.Strings Require Import Ascii String Byte.
From stdpp Require Import base option list sorting strings gmap pretty.

Local Open Scope string_scope.

(** ** Go values *)

(** [[]byte].  A nil slice and an empty slice are both the empty list. *)
Abbreviation bytes := (list Byte.byte).

#[global] Instance byte_eq_dec : EqDecision Byte.byte := Byte.byte_eq_dec.

(** The [error] values that can flow through the package.  Sentinel
    errors are constructors of their own, so that the [switch err] of the
    source is a [match]. *)
Inductive error : Type :=
  | ErrNoRows                          (* pgx.ErrNoRows *)
  | ErrNoSuchKey                       (* ks.ErrNoSuchKey *)
  | ErrKeyExists                       (* ks.ErrKeyExists *)
  | Errorf (msg : string)              (* built by fmt.Errorf or errors.New *)
  | PgError (code message : string).   (* *pgconn.PgError sent by the server *)

#[global] Instance error_eq_dec : EqDecision error.
Proof. solve_decision. Defined.

(** [err.Error()] *)
Definition Error (e : error) : string :=
  match e with
  | ErrNoRows => "no rows in result set"
  | ErrNoSuchKey => "no key by the given name was found"
  | ErrKeyExists => "key by that name already exists, refusing to overwrite"
  | Errorf msg => msg
  | PgError code message => "ERROR: " +:+ message +:+ " (SQLSTATE " +:+ code +:+ ")"
  end.

(** [errors.Is(err, target)]: none of the errors above wraps another one,
    so the chain that [errors.Is] walks has length one. *)
Definition errors_Is (err target : error) : bool := bool_decide (err = target).

(** [fmt.Sprintf(format, a)] for a format with one [%s] verb. *)
Fixpoint Sprintf (format a : string) : string :=
  match format with
  | String "%" (String "s" rest) => a +:+ rest
  | String c rest => String c (Sprintf rest a)
  | EmptyString => EmptyString
  end.

(** ** The environment: a PostgreSQL table behind a pgx pool *)

(** A column value as it travels between the driver and the server. *)
Inductive Value : Type :=
  | VNull
  | VBool (b : bool)
  | VText (s : string)
  | VBytea (b : bytes).

(** One row of the two-column table [(name, data)].  [None] is SQL NULL:
    [data BYTEA] is nullable, and so is [name] in a table that was
    created with a unique index on [name] but without NOT NULL. *)
Record KeyRow : Type := { row_name : option string; row_data : option bytes }.

(** The statements the server model understands, each with its table. *)
Inductive Stmt : Type :=
  | SelectExists (t : string)
  | InsertUpsert (t : string)
  | SelectData (t : string)
  | DeleteWhere (t : string)
  | SelectName (t : string).

Fixpoint strip_prefix (pre s : string) : option string :=
  match pre, s with
  | EmptyString, _ => Some s
  | String a pre', String b s' =>
      if Ascii.eqb a b then strip_prefix pre' s' else None
  | String _ _, EmptyString => None
  end.

Fixpoint strip_suffix (suf s : string) : option string :=
  if String.eqb s suf then Some EmptyString
  else match s with
       | EmptyString => None
       | String c s' => String c <$> strip_suffix suf s'
       end.

(** [between pre suf s] is [Some t] when [s] is [pre], then [t], then [suf]. *)
Definition between (pre suf s : string) : option string :=
  strip_prefix pre s ≫= strip_suffix suf.

(** Reading a statement back from its text.  Anything that is not one of
    the five shapes is a syntax error for this server. *)
Definition parse (sql : string) : option Stmt :=
  match between "SELECT exists(SELECT 1 FROM " " WHERE name = $1)" sql with
  | Some t => Some (SelectExists t)
  | None =>
  match between "INSERT INTO "
          " (name, data) VALUES ($1, $2) ON CONFLICT (name) DO UPDATE SET data = $2"
          sql with
  | Some t => Some (InsertUpsert t)
  | None =>
  match between "SELECT data FROM " " WHERE name = $1" sql with
  | Some t => Some (SelectData t)
  | None =>
  match between "DELETE FROM " " WHERE name = $1" sql with
  | Some t => Some (DeleteWhere t)
  | None =>
  match between "SELECT name FROM " "" sql with
  | Some t => Some (SelectName t)
  | None => None
  end end end end end.

(** [WHERE name = $1]: a NULL name compares equal to nothing. *)
Definition named (n : string) (r : KeyRow) : bool :=
  bool_decide (row_name r = Some n).

(** [INSERT ... ON CONFLICT (name) DO UPDATE SET data = $2]: the row that
    conflicts on [name] gets the new data, and without a conflict the
    new row goes to the end of the table. *)
Fixpoint upsert (n : string) (d : bytes) (rows : list KeyRow) : list KeyRow :=
  match rows with
  | [] => [ {| row_name := Some n; row_data := Some d |} ]
  | r :: rows' =>
      if named n r
      then {| row_name := row_name r; row_data := Some d |} :: rows'
      else r :: upsert n d rows'
  end.

Definition name_value (r : KeyRow) : Value :=
  match row_name r with Some s => VText s | None => VNull end.

Definition data_value (r : KeyRow) : Value :=
  match row_data r with Some b => VBytea b | None => VNull end.

(** What comes back from a request.  [Failed err]: the request failed
    before any of its result could be read (no connection, a statement
    the server refuses to prepare).  [Records recs err]: the statement
    ran and [recs] are the records that arrived (one list of column
    values per record), followed by the end of the result ([None]) or
    by the error that ended the reading ([Some e]). *)
Inductive Reply : Type :=
  | Failed (err : error)
  | Records (recs : list (list Value)) (err : option error).

Definition undefined_table (t : string) : error :=
  PgError "42P01" ("relation " +:+ t +:+ " does not exist").

Definition syntax_error : error := PgError "42601" "syntax error".

Definition bad_parameters : error :=
  PgError "08P01" "bind message supplies the wrong parameters".

(** Running one statement on the database (table name to rows). *)
Definition eval (st : Stmt) (args : list Value) (db : gmap string (list KeyRow))
  : Reply * gmap string (list KeyRow) :=
  match st, args with
  | SelectExists t, [VText n] =>
      match db !! t with
      | Some rows => (Records [[VBool (existsb (named n) rows)]] None, db)
      | None => (Failed (undefined_table t), db)
      end
  | InsertUpsert t, [VText n; VBytea d] =>
      match db !! t with
      | Some rows => (Records [] None, <[t := upsert n d rows]> db)
      | None => (Failed (undefined_table t), db)
      end
  | SelectData t, [VText n] =>
      match db !! t with
      | Some rows => (Records ((λ r, [data_value r]) <$> filter (λ r, named n r) rows) None, db)
      | None => (Failed (undefined_table t), db)
      end
  | DeleteWhere t, [VText n] =>
      match db !! t with
      | Some rows => (Records [] None, <[t := filter (λ r, ¬ named n r) rows]> db)
      | None => (Failed (undefined_table t), db)
      end
  | SelectName t, [] =>
      match db !! t with
      | Some rows => (Records ((λ r, [name_value r]) <$> rows) None, db)
      | None => (Failed (undefined_table t), db)
      end
  | _, _ => (Failed bad_parameters, db)
  end.

(** What a connection can do to a request.
    - [Refused e]: the request fails with [e] before the statement runs
      (no connection to acquire, a timeout on the way, a driver that
      reports [ErrNoRows]); the database is not touched.
    - [Broken n e]: the statement runs on the server, the first [n]
      records of its result arrive, and then the connection fails with
      [e] (a reply lost on the way back). *)
Inductive Fault : Type :=
  | Refused (e : error)
  | Broken (n : nat) (e : error).

#[global] Instance Fault_eq_dec : EqDecision Fault.
Proof. solve_decision. Defined.

(** The pool object ([*pgxpool.Pool] points to one), with the database it
    is connected to.
    - [tables]: the database;
    - [closed]: set by [Close];
    - [faults]: what the connection does to the coming requests, in
      order: [Some f] is the fault [f], and [None], or the end of the
      list, lets the request and its reply through;
    - [issued]: every request handed to the pool, newest first. *)
Record Pool : Type := {
  tables : gmap string (list KeyRow);
  closed : bool;
  faults : list (option Fault);
  issued : list (string * list Value)
}.

Definition closed_pool : error := Errorf "closed pool".

(** The reply that arrives when the connection does [fault] to it. *)
Definition arrives (fault : option Fault) (reply : Reply) : Reply :=
  match fault, reply with
  | Some (Broken n e), Records recs _ => Records (take n recs) (Some e)
  | _, _ => reply
  end.

(** One request through the pool. *)
Definition request (sql : string) (args : list Value) (p : Pool) : Reply * Pool :=
  let log := (sql, args) :: issued p in
  if closed p then
    (Failed closed_pool,
     {| tables := tables p; closed := true; faults := faults p; issued := log |})
  else
    match faults p with
    | Some (Refused e) :: rest =>
        (Failed e,
         {| tables := tables p; closed := false; faults := rest; issued := log |})
    | pending =>
        match parse sql with
        | Some st =>
            let '(reply, db) := eval st args (tables p) in
            (arrives (mjoin (head pending)) reply,
             {| tables := db; closed := false; faults := tail pending; issued := log |})
        | None =>
            (Failed syntax_error,
             {| tables := tables p; closed := false; faults := tail pending;
                issued := log |})
        end
    end.

(** *** The pgx calls the adapter makes *)

(** [pool.QueryRow(ctx, sql, args...)]: the returned [pgx.Row] holds the
    reply until [Scan] looks at it. *)
Definition QueryRow (sql : string) (args : list Value) (p : Pool) : Reply * Pool :=
  request sql args p.

(** [pool.Exec(ctx, sql, args...)].  The command tag is dropped: every
    caller binds it to [_]. *)
Definition Exec (sql : string) (args : list Value) (p : Pool) : option error * Pool :=
  match request sql args p with
  | (Failed e, p') => (Some e, p')
  | (Records _ err, p') => (err, p')
  end.

(** A [pgx.Rows] that has been handed out: the records [rows.Next()] has
    not yet reached, and what [rows.Err()] says once they are read. *)
Record Rows : Type := { unread : list (list Value); rows_err : option error }.

(** [pool.Query(ctx, sql)].  The error it returns is that of a request
    that failed before its result could be read; an error that ends
    the reading of the records is left in the rows, for [rows.Err()]. *)
Definition Query (sql : string) (args : list Value) (p : Pool)
  : (Rows * option error) * Pool :=
  match request sql args p with
  | (Failed e, p') => (({| unread := []; rows_err := Some e |}, Some e), p')
  | (Records recs err, p') => (({| unread := recs; rows_err := err |}, None), p')
  end.

(** [pool.Close()].  Closing a pool that is closed does nothing more, as
    pgxpool has it since v4.11; what is proved about runs with a [Close]
    says how often the pool is closed where that matters. *)
Definition Pool_Close (p : Pool) : Pool :=
  {| tables := tables p; closed := true; faults := faults p; issued := issued p |}.

Definition scan_error : error := Errorf "can't scan into dest[0]".

(** [Scan(&dest)] of one record into a [bool], a [[]byte] and a [string]
    destination.  The result is the destination's new content and the
    error; a failed scan leaves the destination as it was. *)
Definition scan_bool (rec : list Value) (dest : bool) : bool * option error :=
  match rec with
  | [VBool b] => (b, None)
  | _ => (dest, Some scan_error)
  end.

Definition scan_bytes (rec : list Value) (dest : bytes) : bytes * option error :=
  match rec with
  | [VBytea b] => (b, None)
  | [VNull] => ([], None)
  | _ => (dest, Some scan_error)
  end.

Definition scan_string (rec : list Value) (dest : string) : string * option error :=
  match rec with
  | [VText s] => (s, None)
  | _ => (dest, Some scan_error)
  end.

(** [row.Scan(&dest)] on the [pgx.Row] of a [QueryRow].  It returns the
    error of a query that failed; without a record it returns the error
    that ended the reading, or [pgx.ErrNoRows] when there is none;
    otherwise it scans the first record into [dest], closes the rows,
    and returns [rows.Err()]: the error of the scan, or else the error
    that ended the reading, which comes with [dest] already written. *)
Definition Row_Scan {A} (scan : list Value → A → A * option error)
    (row : Reply) (dest : A) : A * option error :=
  match row with
  | Failed e => (dest, Some e)
  | Records [] None => (dest, Some ErrNoRows)
  | Records [] (Some e) => (dest, Some e)
  | Records (rec :: _) err =>
      match scan rec dest with
      | (dest', Some e) => (dest', Some e)
      | (dest', None) => (dest', err)
      end
  end.

(** ** The adapter *)

(** [type PGKeystore struct].  [pool] is a pointer: [None] is nil, and
    [Some p] stands for the pointer together with the pool it points to. *)
Record PGKeystore : Type := { table : string; pool : option Pool }.

(** A method with receiver [k *PGKeystore] reads and may write the
    struct, and it panics when it calls through a nil [k.pool]. *)
Inductive Res (A : Type) : Type :=
  | Ret (a : A) (k : PGKeystore)
  | Panic.
Arguments Ret {A} a k.
Arguments Panic {A}.

Definition M (A : Type) : Type := PGKeystore → Res A.

#[global] Instance M_ret : MRet M := λ A a k, Ret a k.
#[global] Instance M_bind : MBind M := λ A B f m k,
  match m k with
  | Ret a k' => f a k'
  | Panic => Panic
  end.

(** Reading the field [k.table]. *)
Definition k_table : M string := λ k, Ret (table k) k.

(** A call [k.pool.f(...)]. *)
Definition k_pool {A} (f : Pool → A * Pool) : M A := λ k,
  match pool k with
  | Some p => let '(a, p') := f p in Ret a {| table := table k; pool := Some p' |}
  | None => Panic
  end.

(** [func (k *PGKeystore) PgxPool() *pgxpool.Pool] *)
Definition PgxPool : M (option Pool) := λ k, Ret (pool k) k.

(** [func (k *PGKeystore) Close() error] *)
Definition Close : M (option error) := λ k,
  match pool k with
  | Some p => Ret None {| table := table k; pool := Some (Pool_Close p) |}
  | None => Ret None k
  end.

(** [func (k *PGKeystore) Has(name string) (bool, error)] *)
Definition Has (name : string) : M (bool * option error) :=
  t ← k_table;
  let sql := Sprintf "SELECT exists(SELECT 1 FROM %s WHERE name = $1)" t in
  row ← k_pool (QueryRow sql [VText name]);
  let exists_ := false in
  match Row_Scan scan_bool row exists_ with
  | (exists_, Some ErrNoRows) => mret (exists_, Some ErrNoSuchKey)
  | (exists_, None) => mret (exists_, None)
  | (exists_, Some err) => mret (exists_, Some err)
  end.

(** [func (k *PGKeystore) Delete(name string) error] *)
Definition Delete (name : string) : M (option error) :=
  t ← k_table;
  let sql := Sprintf "DELETE FROM %s WHERE name = $1" t in
  err ← k_pool (Exec sql [VText name]);
  match err with
  | Some e => mret (Some e)
  | None => mret None
  end.

(** The loop of [List]: [for rows.Next() { ... }], over the records not
    yet read.  [rows.Next()] is false when no record is left and when the
    rows are closed, and a [rows.Scan] that fails closes the rows: the
    [continue] after a failed scan goes back to a [rows.Next()] that is
    false, whatever is left to read. *)
Fixpoint List_loop (unread : list (list Value)) (closed : bool)
    (names : list string) : list string :=
  match unread with
  | [] => names                                   (* rows.Next() is false *)
  | rec :: unread' =>
      if closed then names                        (* rows.Next() is false *)
      else
        let name := "" in
        match scan_string rec name with
        | (_, Some e) => List_loop unread' true names               (* continue *)
        | (name, None) => List_loop unread' false (names ++ [name]) (* append *)
        end
  end.

(** [func (k *PGKeystore) List() ([]string, error)] *)
Definition List : M (list string * option error) :=
  t ← k_table;
  let sql := Sprintf "SELECT name FROM %s" t in
  '(rows, err) ← k_pool (Query sql []);
  match err with
  | Some e => mret ([], Some e)
  | None =>
      let names := [] in
      mret (List_loop (unread rows) false names, None)
  end.

(** *** Keys *)

(** What the adapter uses of [ci "github.com/libp2p/go-libp2p-core/crypto"]:
    the [PrivKey] interface with its [Equals] method, and the codec pair
    [ci.MarshalPrivateKey] and [ci.UnmarshalPrivateKey].  [PrivKey] is
    the type of the keys; a value of the Go interface [ci.PrivKey] is
    an [option PrivKey], with [None] for nil.  A Go result [(v, err)] is
    a pair. *)
Class PrivKeyCodec (PrivKey : Type) : Type := {
  Equals : PrivKey → PrivKey → bool;
  MarshalPrivateKey : PrivKey → bytes * option error;
  UnmarshalPrivateKey : bytes → option PrivKey * option error
}.

(** The contract of the codec pair: what was marshaled without an error
    unmarshals to a key equal to the original. *)
Class CodecRoundTrip (PrivKey : Type) {codec : PrivKeyCodec PrivKey} : Prop :=
  unmarshal_marshal : ∀ (priv : PrivKey) (b : bytes),
    MarshalPrivateKey priv = (b, None) →
    ∃ out, UnmarshalPrivateKey b = (Some out, None) ∧ Equals out priv = true.

Section keys.
Context {PrivKey : Type} {codec : PrivKeyCodec PrivKey}.

(** The call [ci.MarshalPrivateKey(priv)] on an interface value.  The
    codec asks [priv] for its type and bytes, and a method call on a
    nil interface panics. *)
Definition ci_MarshalPrivateKey (priv : option PrivKey) : M (bytes * option error) :=
  match priv with
  | Some key => mret (MarshalPrivateKey key)
  | None => λ _, Panic
  end.

(** [func (k *PGKeystore) Put(name string, priv ci.PrivKey) error] *)
Definition Put (name : string) (priv : option PrivKey) : M (option error) :=
  if bool_decide (name = "") then
    mret (Some (Errorf "key name must be at least one character"))
  else
    '(exists_, err) ← Has name;
    if (exists_ : bool) then mret (Some ErrKeyExists)
    else if match err with
            | Some e => negb (errors_Is e ErrNoSuchKey)
            | None => false
            end
    then mret err
    else
      '(skbytes, err) ← ci_MarshalPrivateKey priv;
      match err with
      | Some e => mret (Some e)
      | None =>
          t ← k_table;
          let sql :=
            Sprintf "INSERT INTO %s (name, data) VALUES ($1, $2) ON CONFLICT (name) DO UPDATE SET data = $2" t in
          err ← k_pool (Exec sql [VText name; VBytea skbytes]);
          match err with
          | Some e => mret (Some e)
          | None => mret None
          end
      end.

(** [func (k *PGKeystore) Get(name string) (ci.PrivKey, error)] *)
Definition Get (name : string) : M (option PrivKey * option error) :=
  t ← k_table;
  let sql := Sprintf "SELECT data FROM %s WHERE name = $1" t in
  row ← k_pool (QueryRow sql [VText name]);
  let out := [] in
  match Row_Scan scan_bytes row out with
  | (_, Some ErrNoRows) => mret (None, Some ErrNoSuchKey)
  | (out, None) => mret (UnmarshalPrivateKey out)
  | (_, Some err) => mret (None, Some err)
  end.

(** One call of a method of the adapter, and a program of such calls
    run one after the other on the same adapter. *)
Inductive Call : Type :=
  | CallPgxPool
  | CallClose
  | CallHas (name : string)
  | CallPut (name : string) (priv : option PrivKey)
  | CallGet (name : string)
  | CallDelete (name : string)
  | CallList.

Definition call (c : Call) : M unit :=
  match c with
  | CallPgxPool => PgxPool ≫= λ _, mret ()
  | CallClose => Close ≫= λ _, mret ()
  | CallHas name => Has name ≫= λ _, mret ()
  | CallPut name priv => Put name priv ≫= λ _, mret ()
  | CallGet name => Get name ≫= λ _, mret ()
  | CallDelete name => Delete name ≫= λ _, mret ()
  | CallList => List ≫= λ _, mret ()
  end.

Fixpoint calls (cs : list Call) : M unit :=
  match cs with
  | [] => mret ()
  | c :: cs' => call c ≫= λ _, calls cs'
  end.
End keys.

(** *** Options *)

(** [type Options struct { Table string }] *)
Record Options : Type := { Options_Table : string }.

(** [type Option func(o *Options) error]: the function gets the struct and
    gives back what it left in it, with its error. *)
Definition Option : Type := Options → Options * option error.

(** The loop of [Apply], from index [i] on. *)
Fixpoint Apply_from (i : nat) (opts : list Option) (o : Options)
  : Options * option error :=
  match opts with
  | [] => (o, None)
  | opt :: opts' =>
      match opt o with
      | (o', Some err) =>
          (o', Some (Errorf ("datastore option " +:+ pretty i
                             +:+ " failed: " +:+ Error err)))
      | (o', None) => Apply_from (S i) opts' o'
      end
  end.

(** [func (o *Options) Apply(opts ...Option) error] *)
Definition Apply (opts : list Option) (o : Options) : Options * option error :=
  Apply_from 0 opts o.

(** [var OptionDefaults = func(o *Options) error] *)
Definition OptionDefaults : Option :=
  λ o, ({| Options_Table := "keys" |}, None).

(** [func Table(t string) Option] *)
Definition Table (t : string) : Option :=
  λ o, if bool_decide (t ≠ "")
       then ({| Options_Table := t |}, None)
       else (o, None).

Section construction.
(** [pgxpool.Connect(ctx, connString)]: which connection strings reach
    which pool is the network's business. *)
Variable pgxpool_Connect : string → option Pool * option error.

(** [func NewKeystore(ctx, connString, options ...Option)], returning
    the pointer to the new adapter and an error. *)
Definition NewKeystore (connString : string) (options : list Option)
  : option PGKeystore * option error :=
  let cfg := {| Options_Table := "" |} in
  let '(cfg, err) := Apply (OptionDefaults :: options) cfg in
  match err with
  | Some e => (None, Some e)
  | None =>
      let '(pool, err) := pgxpool_Connect connString in
      match err with
      | Some e => (None, Some e)
      | None => (Some {| table := Options_Table cfg; pool := pool |}, None)
      end
  end.
End construction.

(** ** Looking at an adapter from outside *)

(** The rows of the adapter's table: [None] when the pool is nil or the
    database has no table of the configured name. *)
Definition stored (k : PGKeystore) : option (list KeyRow) :=
  p ← pool k; tables p !! table k.

(** The connection fails none of the coming requests. *)
Definition reliable (k : PGKeystore) : bool :=
  match pool k with
  | Some p => bool_decide (faults p = [])
  | None => true
  end.

(** The adapter is in working order: it has a pool, the pool is open and
    its connection reliable, and the configured table exists. *)
Definition serving (k : PGKeystore) : bool :=
  match pool k with
  | Some p =>
      negb (closed p) && bool_decide (faults p = [])
      && bool_decide (is_Some (tables p !! table k))
  | None => false
  end.

(** The requests the adapter has sent so far, newest first. *)
Definition requests (k : PGKeystore) : list (string * list Value) :=
  match pool k with
  | Some p => issued p
  | None => []
  end.

(** ** The expected answers, read off the rows *)

Section answers.
Context {PrivKey : Type} {codec : PrivKeyCodec PrivKey}.

(** What [SELECT data ... WHERE name = $1] and the codec make of the
    rows: the first row named [name], unmarshaled. *)
Definition Get_answer (name : string) (rows : list KeyRow)
  : option PrivKey * option error :=
  match filter (λ r, named name r) rows with
  | [] => (None, Some ErrNoSuchKey)
  | r :: _ => UnmarshalPrivateKey (default [] (row_data r))
  end.

(** The error of a [Put] with a non-empty name and the rows it leaves. *)
Definition Put_answer (name : string) (priv : PrivKey) (rows : list KeyRow)
  : option error * list KeyRow :=
  if existsb (named name) rows then (Some ErrKeyExists, rows)
  else match MarshalPrivateKey priv with
       | (_, Some e) => (Some e, rows)
       | (b, None) => (None, upsert name b rows)
       end.
End answers.

(** ** A sample deployment *)

(** A small codec: a key is a non-empty byte string, marshaled behind a
    one-byte tag. *)
Definition raw_keys : PrivKeyCodec bytes := {|
  Equals a b := bool_decide (a = b);
  MarshalPrivateKey priv :=
    match priv with
    | [] => ([], Some (Errorf "empty key"))
    | _ => (x08 :: priv, None)
    end;
  UnmarshalPrivateKey b :=
    match b with
    | x08 :: ((_ :: _) as priv) => (Some priv, None)
    | _ => (None, Some (Errorf "malformed key"))
    end
|}.

(** A database with the table [keys], holding the key [bar] and a row
    whose name is NULL. *)
Definition sample_pool : Pool := {|
  tables := {[ "keys" := [ {| row_name := Some "bar"; row_data := Some [x08; x02] |};
                           {| row_name := None; row_data := Some [x08; x03] |} ] ]};
  closed := false;
  faults := [];
  issued := []
|}.

Definition sample : PGKeystore := {| table := "keys"; pool := Some sample_pool |}.

Definition sample_Connect (connString : string) : option Pool * option error :=
  if bool_decide (connString = "postgres://localhost/keystore")
  then (Some sample_pool, None)
  else (None, Some (Errorf "failed to connect")).

(** The adapter a call leaves behind. *)
Definition left_by {A} (r : Res A) (k : PGKeystore) : PGKeystore :=
  match r with
  | Ret _ k' => k'
  | Panic => k
  end.

(** [sample] after [Put("foo", 01)]. *)
Definition sample_foo : PGKeystore :=
  left_by (Put (codec := raw_keys) "foo" (Some [x01]) sample) sample.

(** ** The options the package provides *)

Inductive provided : Option → Prop :=
  | provided_defaults : provided OptionDefaults
  | provided_Table (t : string) : provided (Table t).

(** ** The package's test *)

(** [t.Fatal(msg)] ends the test with a message; a test that runs to its
    end returns [None]. *)
Definition fatal_unless (ok : bool) (msg : string)
    (continue : M (option string)) : M (option string) :=
  if ok then continue else mret (Some msg).

Definition fatal_if_err (err : option error)
    (continue : M (option string)) : M (option string) :=
  match err with
  | Some e => mret (Some (Error e))
  | None => continue
  end.

Section test.
Context {PrivKey : Type} {codec : PrivKeyCodec PrivKey}.

(** [func assertGetKey(ks, name, exp) error] *)
Definition assertGetKey (name : string) (exp : PrivKey) : M (option error) :=
  '(outK, err) ← Get name;
  match err with
  | Some e => mret (Some e)
  | None =>
      match outK with
      | None => λ _, Panic
      | Some outK =>
          if negb (Equals outK exp)
          then mret (Some (Errorf "key we got out didn't match expectation"))
          else mret None
      end
  end.

(** [func TestKeystoreBasics(t *testing.T)], on the adapter [newKS]
    returns, with the four generated keys as arguments. *)
Definition TestKeystoreBasics (k1 k2 k3 k4 : PrivKey) : M (option string) :=
  '(l, err) ← List;
  fatal_if_err err (
  fatal_unless (bool_decide (length l = 0)) "expected no keys" (
  err ← Put "foo" (Some k1);
  fatal_if_err err (
  err ← Put "bar" (Some k2);
  fatal_if_err err (
  '(l, err) ← List;
  fatal_if_err err (
  let l := merge_sort String.le l in
  fatal_unless (negb (bool_decide (length l < 2))) "wrong entries listed" (
  fatal_unless (bool_decide (l !! 0 = Some "bar") && bool_decide (l !! 1 = Some "foo"))
    "wrong entries listed" (
  err ← Put "foo" (Some k3);
  fatal_unless (bool_decide (err ≠ None)) "should not be able to overwrite key" (
  '(exist_, err) ← Has "foo";
  fatal_unless exist_ "should know it has a key named foo" (
  fatal_if_err err (
  '(exist_, err) ← Has "nonexistingkey";
  fatal_unless (negb exist_) "should know it doesn't have a key named nonexistingkey" (
  fatal_if_err err (
  err ← Delete "bar";
  fatal_if_err err (
  err ← Put "beep" (Some k3);
  fatal_if_err err (
  err ← Put "boop" (Some k4);
  fatal_if_err err (
  err ← assertGetKey "foo" k1;
  fatal_if_err err (
  err ← assertGetKey "beep" k3;
  fatal_if_err err (
  err ← assertGetKey "boop" k4;
  fatal_if_err err (
  err ← Put "..///foo/" (Some k1);
  fatal_if_err err (
  err ← Put "" (Some k1);
  fatal_unless (bool_decide (err ≠ None)) "shouldn't be able to put a key with no name" (
  err ← Put ".foo" (Some k1);
  fatal_if_err err (
  mret None))))))))))))))))))))).
End test.

(** What [newKS] sets up: a database with an empty table [keys], and the
    adapter [NewKeystore] builds on it without options. *)
Definition test_pool : Pool :=
  {| tables := {[ "keys" := [] ]}; closed := false; faults := []; issued := [] |}.

Definition test_keystore : PGKeystore := {| table := "keys"; pool := Some test_pool |}.

(** [sample_foo] on a connection that fails the next request. *)
Definition sample_foo_timeout : PGKeystore :=
  {| table := "keys";
     pool := (λ p, {| tables := tables p; closed := closed p;
                      faults := [Some (Refused (Errorf "timeout"))];
                      issued := issued p |})
             <$> pool sample_foo |}.

(** ** Further vocabulary *)

(** The table name a list of [Table] options leaves: the last one that
    is not empty, and the default without one. *)
Definition last_table (ts : list string) : string :=
  default "keys" (last (filter (λ t, t ≠ "") ts)).

(** The table a statement works on. *)
Definition stmt_table (st : Stmt) : string :=
  match st with
  | SelectExists t | InsertUpsert t | SelectData t | DeleteWhere t | SelectName t => t
  end.

(** The whole database behind the adapter. *)
Definition database (k : PGKeystore) : option (gmap string (list KeyRow)) :=
  tables <$> pool k.

(** What one method can do to the adapter: send a request about its own
    table through its pool, or close the pool. *)
Inductive step : PGKeystore → PGKeystore → Prop :=
  | step_request (k : PGKeystore) (p : Pool) (sql : string) (args : list Value)
      (st : Stmt) :
      pool k = Some p → parse sql = Some st → stmt_table st = table k →
      step k {| table := table k; pool := Some (request sql args p).2 |}
  | step_close (k : PGKeystore) (p : Pool) :
      pool k = Some p →
      step k {| table := table k; pool := Some (Pool_Close p) |}.

(** The names [List] is to return for these rows. *)
Definition names (rows : list KeyRow) : list string := omap row_name rows.

(** No [CallClose] among the calls. *)
Definition keeps_open {PrivKey : Type} (c : Call (PrivKey := PrivKey)) : bool :=
  match c with
  | CallClose => false
  | _ => true
  end.

(** [sample_pool] behind a driver that answers the next request with
    "no rows". *)
Definition sample_no_rows : PGKeystore :=
  {| table := "keys";
     pool := Some {| tables := tables sample_pool; closed := false;
                     faults := [Some (Refused ErrNoRows)]; issued := [] |} |}.

(** [sample_pool] on a connection that fails the next request. *)
Definition sample_timeout : PGKeystore :=
  {| table := "keys";
     pool := Some {| tables := tables sample_pool; closed := false;
                     faults := [Some (Refused (Errorf "timeout"))]; issued := [] |} |}.

(** An option that fails. *)
Definition failing_option : Option := λ o, (o, Some (Errorf "no such option")).

(** What a call returned, when it did not panic. *)
Definition result {A} (r : Res A) : option A :=
  match r with
  | Ret a _ => Some a
  | Panic => None
  end.

(** What one statement of the adapter can do to the rows of a table. *)
Inductive rewrites : list KeyRow → list KeyRow → Prop :=
  | rewrites_upsert (n : string) (d : bytes) (rows : list KeyRow) :
      rewrites rows (upsert n d rows)
  | rewrites_delete (n : string) (rows : list KeyRow) :
      rewrites rows (filter (λ r, ¬ named n r) rows).

(** A database the adapter shares with a block store. *)
Definition shared_pool : Pool := {|
  tables := {[ "keys" := [ {| row_name := Some "bar"; row_data := Some [x08; x02] |} ];
               "blocks" := [ {| row_name := Some "Qm"; row_data := Some [x0a] |} ] ]};
  closed := false;
  faults := [None; Some (Refused (Errorf "timeout"))];
  issued := []
|}.

Definition shared : PGKeystore := {| table := "keys"; pool := Some shared_pool |}.

(** The statement texts of the five methods, for the table [t]. *)
Definition sql_Has (t : string) : string :=
  Sprintf "SELECT exists(SELECT 1 FROM %s WHERE name = $1)" t.
Definition sql_Put (t : string) : string :=
  Sprintf "INSERT INTO %s (name, data) VALUES ($1, $2) ON CONFLICT (name) DO UPDATE SET data = $2" t.
Definition sql_Get (t : string) : string :=
  Sprintf "SELECT data FROM %s WHERE name = $1" t.
Definition sql_Delete (t : string) : string :=
  Sprintf "DELETE FROM %s WHERE name = $1" t.
Definition sql_List (t : string) : string :=
  Sprintf "SELECT name FROM %s" t.

(** The adapter after its pool has taken one request. *)
Definition sent (sql : string) (args : list Value) (k : PGKeystore) : PGKeystore :=
  {| table := table k;
     pool := (λ p, (request sql args p).2) <$> pool k |}.

(** The rows of the table [t] of the adapter's database. *)
Definition rows_of (t : string) (k : PGKeystore) : option (list KeyRow) :=
  p ← pool k; tables p !! t.

(** ** What [List] reaches *)

(** The names [List] returns for these rows: those before the first row
    whose name does not scan into a string. *)
Fixpoint listed (rows : list KeyRow) : list string :=
  match rows with
  | [] => []
  | r :: rows' =>
      match row_name r with
      | Some n => n :: listed rows'
      | None => []
      end
  end.

(** Every row has a name, as in a table made with [name TEXT NOT NULL]. *)
Definition all_named (rows : list KeyRow) : bool :=
  forallb (λ r, bool_decide (is_Some (row_name r))) rows.

(** ** What the connection and the caller may do *)

(** No coming request has its reply cut off after the statement ran. *)
Definition unbroken (k : PGKeystore) : bool :=
  match pool k with
  | Some p => forallb (λ f, match f with Some (Broken _ _) => false | _ => true end)
                (faults p)
  | None => true
  end.

(** A call that passes no nil key. *)
Definition has_key {PrivKey : Type} (c : Call (PrivKey := PrivKey)) : bool :=
  match c with
  | CallPut _ None => false
  | _ => true
  end.

(** How many of the calls are [Close]. *)
Definition closes {PrivKey : Type} (cs : list (Call (PrivKey := PrivKey))) : nat :=
  length (filter (λ c, keeps_open c = false) cs).

(** 1 when the pool of the adapter has been closed, and 0 otherwise. *)
Definition closed_before (k : PGKeystore) : nat :=
  match pool k with
  | Some p => if closed p then 1 else 0
  | None => 0
  end.

(** A table where every row has a name. *)
Definition tidy_pool : Pool := {|
  tables := {[ "keys" := [ {| row_name := Some "bar"; row_data := Some [x08; x02] |};
                           {| row_name := Some "baz"; row_data := None |} ] ]};
  closed := false;
  faults := [];
  issued := []
|}.

Definition tidy : PGKeystore := {| table := "keys"; pool := Some tidy_pool |}.

(** [tidy] after [Put("foo", 01)]. *)
Definition tidy_foo : PGKeystore :=
  left_by (Put (codec := raw_keys) "foo" (Some [x01]) tidy) tidy.

(** [sample_pool] on a connection that breaks while the reply to the
    next request is read, after [n] records. *)
Definition sample_broken (n : nat) : PGKeystore :=
  {| table := "keys";
     pool := Some {| tables := tables sample_pool; closed := false;
                     faults := [Some (Broken n (Errorf "connection reset"))];
                     issued := [] |} |}.

(** What [Has] makes of the reply to its query. *)
Definition Has_answer (row : Reply) : bool * option error :=
  match row with
  | Failed ErrNoRows | Records [] None | Records [] (Some ErrNoRows) =>
      (false, Some ErrNoSuchKey)
  | Failed e | Records [] (Some e) => (false, Some e)
  | Records ([VBool b] :: _) None => (b, None)
  | Records ([VBool b] :: _) (Some ErrNoRows) => (b, Some ErrNoSuchKey)
  | Records ([VBool b] :: _) (Some e) => (b, Some e)
  | Records (_ :: _) _ => (false, Some scan_error)
  end.

(** The error [Exec] reports for a reply. *)
Definition reported (reply : Reply) : option error :=
  match reply with
  | Failed e => Some e
  | Records _ err => err
  end.

(** * Properties *)

(** ** Statement texts *)

Lemma length_append (s1 s2 : string) :
  String.length (s1 +:+ s2) = String.length s1 + String.length s2.
Proof. induction s1 as [|c s1 IH]; simpl; [reflexivity | now rewrite IH]. Qed.

Lemma strip_suffix_self (suf : string) : strip_suffix suf suf = Some "".
Proof. destruct suf; simpl; [reflexivity | now rewrite !Ascii.eqb_refl, String.eqb_refl]. Qed.

Lemma strip_suffix_cons (suf : string) (c : ascii) (s : string) :
  strip_suffix suf (String c s)
  = if String.eqb (String c s) suf then Some ""
    else String c <$> strip_suffix suf s.
Proof. reflexivity. Qed.

Lemma strip_suffix_append (suf t : string) : strip_suffix suf (t +:+ suf) = Some t.
Proof.
  induction t as [|c t IH].
  - apply strip_suffix_self.
  - change (String c t +:+ suf) with (String c (t +:+ suf)).
    rewrite strip_suffix_cons, IH.
    destruct (String.eqb_spec (String c (t +:+ suf)) suf) as [E|_]; [|reflexivity].
    apply (f_equal String.length) in E. simpl in E.
    rewrite length_append in E. lia.
Qed.

(** Each statement text the adapter builds reads back as the statement
    it was meant to be, on the table whose name was spliced in. *)
Lemma parse_exists (t : string) :
  parse (Sprintf "SELECT exists(SELECT 1 FROM %s WHERE name = $1)" t)
  = Some (SelectExists t).
Proof. unfold parse, between. simpl. now rewrite strip_suffix_append. Qed.

Lemma parse_insert (t : string) :
  parse (Sprintf "INSERT INTO %s (name, data) VALUES ($1, $2) ON CONFLICT (name) DO UPDATE SET data = $2" t)
  = Some (InsertUpsert t).
Proof. unfold parse, between. simpl. now rewrite strip_suffix_append. Qed.

Lemma parse_data (t : string) :
  parse (Sprintf "SELECT data FROM %s WHERE name = $1" t) = Some (SelectData t).
Proof. unfold parse, between. simpl. now rewrite strip_suffix_append. Qed.

Lemma parse_delete (t : string) :
  parse (Sprintf "DELETE FROM %s WHERE name = $1" t) = Some (DeleteWhere t).
Proof. unfold parse, between. simpl. now rewrite strip_suffix_append. Qed.

Lemma parse_name (t : string) :
  parse (Sprintf "SELECT name FROM %s" t) = Some (SelectName t).
Proof. unfold parse, between. simpl. now rewrite strip_suffix_append. Qed.

(** ** Requests through a pool in working order *)

Lemma request_through (sql : string) (args : list Value) (p : Pool) (st : Stmt) :
  closed p = false → faults p = [] → parse sql = Some st →
  request sql args p
  = ((eval st args (tables p)).1,
     {| tables := (eval st args (tables p)).2; closed := false; faults := [];
        issued := (sql, args) :: issued p |}).
Proof.
  intros Hc Hf Hp. unfold request. rewrite Hc, Hf, Hp.
  now destruct (eval st args (tables p)) as [[e|recs err] db].
Qed.

(** A request whose records came back to their end went through to the
    database. *)
Lemma request_records (sql : string) (args : list Value) (p p' : Pool)
    (recs : list (list Value)) :
  request sql args p = (Records recs None, p') →
  ∃ st, parse sql = Some st
        ∧ eval st args (tables p) = (Records recs None, tables p')
        ∧ closed p' = false
        ∧ faults p' = tail (faults p).
Proof.
  unfold request. destruct (closed p); [discriminate|].
  destruct (faults p) as [|[[e|n e]|] rest]; try discriminate;
    (destruct (parse sql) as [st|]; [|discriminate]);
    destruct (eval st args (tables p)) as [[e'|recs' err'] db] eqn:E;
    simpl; try discriminate;
    intros [= -> -> <-]; exists st; simpl; auto.
Qed.

Lemma serving_inv (k : PGKeystore) :
  serving k = true →
  ∃ p rows, pool k = Some p ∧ closed p = false ∧ faults p = []
            ∧ tables p !! table k = Some rows.
Proof.
  unfold serving. destruct (pool k) as [p|]; [|discriminate].
  rewrite !andb_true_iff, negb_true_iff, !bool_decide_eq_true.
  intros [[Hc Hf] [rows Hr]]. eauto 10.
Qed.

Lemma serving_stored (k : PGKeystore) :
  serving k = true → is_Some (stored k).
Proof.
  intros (p & rows & Hp & _ & _ & Hr)%serving_inv.
  unfold stored. rewrite Hp. simpl. rewrite Hr. eauto.
Qed.

(** ** The methods on an adapter in working order *)

Ltac unfold_method :=
  unfold Has, Delete, List, Close, PgxPool, k_table, k_pool,
    QueryRow, Exec, Query, mbind, M_bind, mret, M_ret.

Ltac working_order H :=
  let p := fresh "p" in
  let rows := fresh "rows" in
  let Hp := fresh "Hp" in
  let Hc := fresh "Hc" in
  let Hf := fresh "Hf" in
  let Hr := fresh "Hr" in
  destruct (serving_inv _ H) as (p & rows & Hp & Hc & Hf & Hr);
  unfold stored in *; rewrite Hp in *; simpl in *; rewrite ?Hr in *;
  simplify_eq.

Ltac still_serving Hr :=
  unfold serving, stored; simpl;
  rewrite ?lookup_insert_eq, ?Hr; simpl;
  repeat split; try reflexivity;
  rewrite ?andb_true_iff, ?bool_decide_eq_true; eauto.

Lemma Has_serving (name : string) (k : PGKeystore) (rows : list KeyRow) :
  serving k = true → stored k = Some rows →
  ∃ k', Has name k = Ret (existsb (named name) rows, None) k'
        ∧ serving k' = true ∧ stored k' = Some rows ∧ table k' = table k.
Proof.
  intros Hs Hrows. working_order Hs. unfold_method. rewrite Hp.
  rewrite (request_through _ _ _ _ Hc Hf (parse_exists _)).
  simpl. rewrite Hr. simpl. eexists. split; [reflexivity|]. still_serving Hr.
Qed.

Lemma Delete_serving (name : string) (k : PGKeystore) (rows : list KeyRow) :
  serving k = true → stored k = Some rows →
  ∃ k', Delete name k = Ret None k'
        ∧ serving k' = true
        ∧ stored k' = Some (filter (λ r, ¬ named name r) rows)
        ∧ table k' = table k.
Proof.
  intros Hs Hrows. working_order Hs. unfold_method. rewrite Hp.
  rewrite (request_through _ _ _ _ Hc Hf (parse_delete _)).
  simpl. rewrite Hr. simpl. eexists. split; [reflexivity|]. still_serving Hr.
Qed.

(** Once the rows are closed the loop is over. *)
Lemma List_loop_closed (unread : list (list Value)) (names : list string) :
  List_loop unread true names = names.
Proof. now destruct unread. Qed.

(** The loop of [List] adds the names up to the first record that does
    not scan, in the order of the records. *)
Lemma List_loop_listed (rows : list KeyRow) (names : list string) :
  List_loop ((λ r, [name_value r]) <$> rows) false names
  = (names ++ listed rows)%list.
Proof.
  revert names. induction rows as [|r rows IH]; intros names; simpl.
  - now rewrite app_nil_r.
  - unfold name_value. destruct (row_name r) as [s|]; simpl.
    + rewrite IH. now rewrite <- app_assoc.
    + now rewrite List_loop_closed, app_nil_r.
Qed.

Lemma List_serving (k : PGKeystore) (rows : list KeyRow) :
  serving k = true → stored k = Some rows →
  ∃ k', List k = Ret (listed rows, None) k'
        ∧ serving k' = true ∧ stored k' = Some rows ∧ table k' = table k.
Proof.
  intros Hs Hrows. working_order Hs. unfold_method. rewrite Hp.
  rewrite (request_through _ _ _ _ Hc Hf (parse_name _)).
  simpl. rewrite Hr. simpl. rewrite List_loop_listed. simpl.
  eexists. split; [reflexivity|]. still_serving Hr.
Qed.

(** ** No method writes the [table] field *)

Lemma k_pool_table {A} (f : Pool → A * Pool) (k k' : PGKeystore) (a : A) :
  k_pool f k = Ret a k' →
  table k' = table k ∧ ∃ p, pool k = Some p ∧ f p = (a, default p (pool k'))
                            ∧ is_Some (pool k').
Proof.
  unfold k_pool. destruct (pool k) as [p|]; [|discriminate].
  destruct (f p) as [a' p'] eqn:E. intros [= <- <-]. simpl. eauto 10.
Qed.

Lemma Has_table (name : string) (k k' : PGKeystore) (r : bool * option error) :
  Has name k = Ret r k' → table k' = table k.
Proof.
  unfold Has, k_table, mbind, M_bind.
  destruct (k_pool _ k) as [row k1|] eqn:E; [|discriminate].
  apply k_pool_table in E as [<- _].
  destruct (Row_Scan scan_bool row false) as [b [[]|]];
    unfold mret, M_ret; now intros [= <- <-].
Qed.

Lemma Delete_table (name : string) (k k' : PGKeystore) (r : option error) :
  Delete name k = Ret r k' → table k' = table k.
Proof.
  unfold Delete, k_table, mbind, M_bind.
  destruct (k_pool _ k) as [err k1|] eqn:E; [|discriminate].
  apply k_pool_table in E as [<- _].
  destruct err; unfold mret, M_ret; now intros [= <- <-].
Qed.

Lemma List_table (k k' : PGKeystore) (r : list string * option error) :
  List k = Ret r k' → table k' = table k.
Proof.
  unfold List, k_table, mbind, M_bind.
  destruct (k_pool _ k) as [[rows err] k1|] eqn:E; [|discriminate].
  apply k_pool_table in E as [<- _].
  destruct err; unfold mret, M_ret; now intros [= <- <-].
Qed.

Lemma Close_table (k k' : PGKeystore) (r : option error) :
  Close k = Ret r k' → table k' = table k.
Proof. unfold Close. destruct (pool k); now intros [= <- <-]. Qed.

Lemma PgxPool_table (k k' : PGKeystore) (r : option Pool) :
  PgxPool k = Ret r k' → table k' = table k.
Proof. unfold PgxPool. now intros [= <- <-]. Qed.

Section keys_facts.
Context {PrivKey : Type} {codec : PrivKeyCodec PrivKey}.

Lemma Get_table (name : string) (k k' : PGKeystore)
    (r : option PrivKey * option error) :
  Get name k = Ret r k' → table k' = table k.
Proof.
  unfold Get, k_table, mbind, M_bind.
  destruct (k_pool _ k) as [row k1|] eqn:E; [|discriminate].
  apply k_pool_table in E as [<- _].
  destruct (Row_Scan scan_bytes row []) as [b [[]|]];
    unfold mret, M_ret; now intros [= <- <-].
Qed.

(** [Put], step by step. *)
Lemma Put_unfold (name : string) (priv : option PrivKey) (k : PGKeystore) :
  Put name priv k
  = if bool_decide (name = "")
    then Ret (Some (Errorf "key name must be at least one character")) k
    else match Has name k with
         | Panic => Panic
         | Ret (true, _) k1 => Ret (Some ErrKeyExists) k1
         | Ret (false, err) k1 =>
             if match err with
                | Some e => negb (errors_Is e ErrNoSuchKey)
                | None => false
                end
             then Ret err k1
             else match priv with
                  | None => Panic
                  | Some key =>
                      match MarshalPrivateKey key with
                      | (_, Some e) => Ret (Some e) k1
                      | (b, None) =>
                          k_pool (Exec (sql_Put (table k1)) [VText name; VBytea b]) k1
                      end
                  end
         end.
Proof.
  unfold Put. case_bool_decide; [reflexivity|].
  unfold mbind at 1, M_bind at 1.
  destruct (Has name k) as [[[] err] k1|]; [reflexivity | | reflexivity].
  destruct (match err with Some e => negb (errors_Is e ErrNoSuchKey) | None => false end);
    [reflexivity|].
  unfold mbind at 1, M_bind at 1, ci_MarshalPrivateKey.
  destruct priv as [key|]; [|reflexivity].
  unfold mret at 1, M_ret at 1.
  destruct (MarshalPrivateKey key) as [b [e|]]; [reflexivity|].
  unfold k_table, mbind, M_bind, sql_Put.
  destruct (k_pool _ k1) as [[e|] k2|]; reflexivity.
Qed.

Lemma Put_table (name : string) (priv : option PrivKey) (k k' : PGKeystore)
    (r : option error) :
  Put name priv k = Ret r k' → table k' = table k.
Proof.
  rewrite Put_unfold. case_bool_decide; [now intros [= <- <-]|].
  destruct (Has name k) as [[ex err] k1|] eqn:EH; [|discriminate].
  apply Has_table in EH as <-.
  destruct ex; [now intros [= <- <-]|].
  destruct (match err with Some e => negb (errors_Is e ErrNoSuchKey) | None => false end);
    [now intros [= <- <-]|].
  destruct priv as [key|]; [|discriminate].
  destruct (MarshalPrivateKey key) as [b [e|]]; [now intros [= <- <-]|].
  now intros [<- _]%k_pool_table.
Qed.

Lemma call_table (c : Call) (k k' : PGKeystore) :
  call c k = Ret () k' → table k' = table k.
Proof.
  destruct c; unfold call, mbind, M_bind.
  - destruct (PgxPool k) eqn:E; [|discriminate].
    apply PgxPool_table in E. unfold mret, M_ret. now intros [= <-].
  - destruct (Close k) eqn:E; [|discriminate].
    apply Close_table in E. unfold mret, M_ret. now intros [= <-].
  - destruct (Has name k) eqn:E; [|discriminate].
    apply Has_table in E. unfold mret, M_ret. now intros [= <-].
  - destruct (Put name priv k) eqn:E; [|discriminate].
    apply Put_table in E. unfold mret, M_ret. now intros [= <-].
  - destruct (Get name k) eqn:E; [|discriminate].
    apply Get_table in E. unfold mret, M_ret. now intros [= <-].
  - destruct (Delete name k) eqn:E; [|discriminate].
    apply Delete_table in E. unfold mret, M_ret. now intros [= <-].
  - destruct (List k) eqn:E; [|discriminate].
    apply List_table in E. unfold mret, M_ret. now intros [= <-].
Qed.

Lemma calls_table (cs : list Call) (k k' : PGKeystore) :
  calls cs k = Ret () k' → table k' = table k.
Proof.
  revert k. induction cs as [|c cs IH]; intros k; simpl.
  - unfold mret, M_ret. now intros [= <-].
  - unfold mbind, M_bind. destruct (call c k) as [[] k1|] eqn:E; [|discriminate].
    apply call_table in E as <-. apply IH.
Qed.
End keys_facts.

(** ** Rows *)

Lemma existsb_upsert (n : string) (d : bytes) (rows : list KeyRow) :
  existsb (named n) (upsert n d rows) = true.
Proof.
  induction rows as [|r rows IH]; simpl.
  - unfold named. simpl. now rewrite bool_decide_eq_true_2.
  - destruct (named n r) eqn:E; simpl.
    + unfold named in *. simpl. now rewrite E.
    + now rewrite E, IH.
Qed.

(** After the upsert the first row named [n] carries the new data. *)
Lemma filter_upsert (n : string) (d : bytes) (rows : list KeyRow) :
  ∃ r rest, filter (λ r, named n r) (upsert n d rows) = r :: rest
            ∧ row_data r = Some d.
Proof.
  induction rows as [|r rows (r' & rest & IH & Hd)]; simpl.
  - eexists _, [].
    rewrite filter_cons_True; [split; reflexivity|].
    unfold named. simpl. now apply bool_decide_pack.
  - destruct (named n r) eqn:E.
    + eexists _, _. rewrite filter_cons_True; [split; reflexivity|].
      unfold named in *. simpl. now rewrite E.
    + rewrite filter_cons_False; [eauto|]. now rewrite E.
Qed.

(** What [DELETE ... WHERE name = $1] leaves has no row named [n]. *)
Lemma existsb_filter_out (n : string) (rows : list KeyRow) :
  existsb (named n) (filter (λ r, ¬ named n r) rows) = false.
Proof.
  induction rows as [|r rows IH]; [reflexivity|].
  destruct (named n r) eqn:E.
  - rewrite filter_cons_False; [assumption|]. rewrite E. simpl. tauto.
  - rewrite filter_cons_True; [|rewrite E; simpl; tauto].
    simpl. now rewrite E.
Qed.

Lemma filter_filter_out (n : string) (rows : list KeyRow) :
  filter (λ r, named n r) (filter (λ r, ¬ named n r) rows) = [].
Proof.
  induction rows as [|r rows IH]; [reflexivity|].
  destruct (named n r) eqn:E.
  - rewrite filter_cons_False; [assumption|]. rewrite E. simpl. tauto.
  - rewrite filter_cons_True; [|rewrite E; simpl; tauto].
    rewrite filter_cons_False; [assumption|]. now rewrite E.
Qed.

(** No row named [n]: the existence query says no. *)
Lemma existsb_absent (n : string) (rows : list KeyRow) :
  Some n ∉ row_name <$> rows → existsb (named n) rows = false.
Proof.
  induction rows as [|r rows IH]; [reflexivity|].
  rewrite fmap_cons, not_elem_of_cons. intros [Hr Hrows]. simpl.
  rewrite IH by assumption. unfold named.
  rewrite bool_decide_eq_false_2; [reflexivity | congruence].
Qed.

(** ** [Put] and [Get] *)

Section put_get.
Context {PrivKey : Type} {codec : PrivKeyCodec PrivKey}.

Lemma Get_serving (name : string) (k : PGKeystore) (rows : list KeyRow) :
  serving k = true → stored k = Some rows →
  ∃ k', Get name k = Ret (Get_answer name rows) k'
        ∧ serving k' = true ∧ stored k' = Some rows ∧ table k' = table k.
Proof.
  intros Hs Hrows. working_order Hs. unfold Get. unfold_method. rewrite Hp.
  rewrite (request_through _ _ _ _ Hc Hf (parse_data _)).
  simpl. rewrite Hr. simpl. unfold Get_answer.
  destruct (filter _ rows) as [|r rest]; simpl.
  - eexists. split; [reflexivity|]. still_serving Hr.
  - unfold data_value. destruct (row_data r) as [b|]; simpl;
      (eexists; split; [reflexivity|]; still_serving Hr).
Qed.

(** A [Put] that returned nil was given a key and wrote it, marshaled,
    under [name]. *)
Lemma Put_nil_inv (name : string) (priv : option PrivKey) (k k' : PGKeystore) :
  Put name priv k = Ret None k' →
  ∃ key b rows, priv = Some key
                ∧ MarshalPrivateKey key = (b, None)
                ∧ stored k' = Some (upsert name b rows)
                ∧ table k' = table k
                ∧ (reliable k' = true → serving k' = true)
                ∧ name ≠ "".
Proof.
  rewrite Put_unfold. case_bool_decide as Hname; [discriminate|].
  destruct (Has name k) as [[ex err] k1|] eqn:EH; [|discriminate].
  apply Has_table in EH as <-.
  destruct ex; [discriminate|].
  destruct (match err with Some e => negb (errors_Is e ErrNoSuchKey) | None => false end) eqn:Eerr.
  { destruct err; [discriminate|discriminate]. }
  destruct priv as [key|]; [|discriminate].
  destruct (MarshalPrivateKey key) as [b [e|]] eqn:Hm; [discriminate|].
  intros E. apply k_pool_table in E as (Ht & p & Hp & HE & [p2 Hp2]).
  rewrite Hp2 in HE. cbn [default from_option] in HE. unfold Exec in HE.
  destruct (request _ _ p) as [[e|recs [e|]] p'] eqn:ER; try discriminate.
  injection HE as ->.
  apply request_records in ER as (st & Hst & Hev & Hc & _).
  unfold sql_Put in Hst. rewrite parse_insert in Hst. injection Hst as <-.
  simpl in Hev.
  destruct (tables p !! table k1) as [rows|] eqn:Hrows; [|discriminate].
  injection Hev as _ Hdb.
  exists key, b, rows. split; [reflexivity|]. split; [assumption|].
  unfold stored, reliable, serving. rewrite Hp2, Ht. simpl.
  rewrite <- Hdb, lookup_insert_eq, Hc. simpl.
  repeat split; [now intros -> | assumption].
Qed.

Lemma Put_serving (name : string) (priv : PrivKey) (k : PGKeystore)
    (rows : list KeyRow) :
  name ≠ "" → serving k = true → stored k = Some rows →
  ∃ k', Put name (Some priv) k = Ret (Put_answer name priv rows).1 k'
        ∧ serving k' = true
        ∧ stored k' = Some (Put_answer name priv rows).2
        ∧ table k' = table k.
Proof.
  intros Hname Hs Hrows.
  destruct (Has_serving name k rows Hs Hrows) as (k1 & EH & Hs1 & Hrows1 & Ht1).
  rewrite Put_unfold. unfold Put_answer.
  rewrite bool_decide_eq_false_2 by assumption. rewrite EH.
  destruct (existsb (named name) rows); [eauto|].
  destruct (MarshalPrivateKey priv) as [b [e|]]; [eauto|].
  clear EH Hs Hrows. rewrite <- Ht1.
  destruct (serving_inv _ Hs1) as (p & rows1 & Hp & Hc & Hf & Hr).
  unfold stored in Hrows1. rewrite Hp in Hrows1. simpl in Hrows1.
  rewrite Hr in Hrows1. injection Hrows1 as ->.
  unfold sql_Put. unfold_method. rewrite Hp.
  rewrite (request_through _ _ _ _ Hc Hf (parse_insert _)).
  simpl. rewrite Hr. simpl. eexists. split; [reflexivity|]. still_serving Hr.
Qed.

(** With a nil key [Put] gets as far as the codec, and no further. *)
Lemma Put_nil_key_serving (name : string) (k : PGKeystore) (rows : list KeyRow) :
  name ≠ "" → serving k = true → stored k = Some rows →
  if existsb (named name) rows
  then ∃ k', Put name None k = Ret (Some ErrKeyExists) k'
             ∧ serving k' = true ∧ stored k' = Some rows ∧ table k' = table k
  else Put name None k = Panic.
Proof.
  intros Hname Hs Hrows.
  destruct (Has_serving name k rows Hs Hrows) as (k1 & EH & Hs1 & Hrows1 & Ht1).
  rewrite Put_unfold. rewrite bool_decide_eq_false_2 by assumption. rewrite EH.
  destruct (existsb (named name) rows); [eauto | reflexivity].
Qed.
End put_get.

(** ** The sample codec keeps the contract *)

Lemma raw_keys_round_trip : CodecRoundTrip bytes (codec := raw_keys).
Proof.
  intros priv b. simpl. destruct priv as [|x priv]; [discriminate|].
  intros [= <-]. exists (x :: priv). split; [reflexivity|].
  now apply bool_decide_eq_true.
Qed.

(** * The keystore contract *)

Section contract.
Context {PrivKey : Type} {codec : PrivKeyCodec PrivKey}.

(** Reading back the rows an upsert of a marshaled key left. *)
Lemma Get_upserted {round_trip : CodecRoundTrip PrivKey}
    (n : string) (priv : PrivKey) (b : bytes) (rows : list KeyRow)
    (k : PGKeystore) :
  MarshalPrivateKey priv = (b, None) →
  serving k = true → stored k = Some (upsert n b rows) →
  ∃ out k', Get n k = Ret (Some out, None) k' ∧ Equals out priv = true.
Proof.
  intros Hm Hs Hrows.
  destruct (Get_serving n k _ Hs Hrows) as (k' & HG & _).
  destruct (filter_upsert n b rows) as (r & rest & Hf & Hd).
  destruct (unmarshal_marshal priv b Hm) as (out & Hu & He).
  exists out, k'. split; [|assumption].
  rewrite HG. unfold Get_answer. now rewrite Hf, Hd, <- Hu.
Qed.

(** C1. For every name [n] and key [priv]: when [Put n priv] returned
    nil, a following [Get n] (on a connection that does not fail)
    returns a key and no error, and the key [Equals] [priv].  The
    codec pair is assumed to round-trip. *)
Theorem Get_after_Put {round_trip : CodecRoundTrip PrivKey}
    (n : string) (priv : PrivKey) (k k1 : PGKeystore) :
  Put n (Some priv) k = Ret None k1 →
  reliable k1 = true →
  ∃ out k2, Get n k1 = Ret (Some out, None) k2 ∧ Equals out priv = true.
Proof.
  intros (key & b & rows & [= <-] & Hm & Hrows & _ & Hs & _)%Put_nil_inv Hrel.
  eapply Get_upserted; eauto.
Qed.

(** [Put] under a name that is taken, with whatever key. *)
Lemma Put_taken_serving (n : string) (priv : option PrivKey) (k : PGKeystore)
    (rows : list KeyRow) :
  n ≠ "" → serving k = true → stored k = Some rows →
  existsb (named n) rows = true →
  ∃ k', Put n priv k = Ret (Some ErrKeyExists) k'
        ∧ serving k' = true ∧ stored k' = Some rows ∧ table k' = table k.
Proof.
  intros Hn Hs Hrows Hex.
  destruct (Has_serving n k rows Hs Hrows) as (k1 & EH & Hs1 & Hrows1 & Ht1).
  rewrite Put_unfold. rewrite bool_decide_eq_false_2 by assumption.
  rewrite EH, Hex. eauto.
Qed.

(** C2. For every name [n] and keys [priv1], [priv2] (the second may
    even be nil): after [Put n priv1] returned nil, [Put n priv2] (not
    concurrent, on a connection that does not fail) returns
    [ErrKeyExists] and leaves the rows of the table as they were, and
    [Get n] still returns a key equal to [priv1]. *)
Theorem Put_existing_name {round_trip : CodecRoundTrip PrivKey}
    (n : string) (priv1 : PrivKey) (priv2 : option PrivKey) (k k1 : PGKeystore) :
  Put n (Some priv1) k = Ret None k1 →
  reliable k1 = true →
  ∃ k2, Put n priv2 k1 = Ret (Some ErrKeyExists) k2
        ∧ stored k2 = stored k1
        ∧ ∃ out k3, Get n k2 = Ret (Some out, None) k3
                    ∧ Equals out priv1 = true.
Proof.
  intros (key & b & rows & [= <-] & Hm & Hrows & _ & Hs & Hn)%Put_nil_inv Hrel.
  specialize (Hs Hrel).
  destruct (Put_taken_serving n priv2 k1 _ Hn Hs Hrows (existsb_upsert _ _ _))
    as (k2 & HP & Hs2 & Hrows2 & _).
  exists k2. split; [assumption|].
  split; [congruence|]. eapply Get_upserted; eauto.
Qed.

(** C3. For every key [priv], a nil key included, [Put "" priv] returns
    the error "key name must be at least one character" and leaves the
    adapter, its pool and the log of requests exactly as they were:
    nothing was sent.  This holds for every adapter, also one with a
    nil pool. *)
Theorem Put_empty_name (priv : option PrivKey) (k : PGKeystore) :
  ∃ k', Put "" priv k
        = Ret (Some (Errorf "key name must be at least one character")) k'
        ∧ k' = k
        ∧ requests k' = requests k
        ∧ stored k' = stored k.
Proof. exists k. repeat split. Qed.

(** C4. For every name [n], on an adapter in working order: [Delete n]
    returns nil whether or not the table has a row named [n], and
    afterwards [Has n] returns false with no error and [Get n]
    returns [ErrNoSuchKey]. *)
Theorem Delete_then_absent (n : string) (k : PGKeystore) :
  serving k = true →
  ∃ k1, Delete n k = Ret None k1
        ∧ serving k1 = true
        ∧ (∃ k2, Has n k1 = Ret (false, None) k2)
        ∧ (∃ k3, Get n k1 = Ret (None, Some ErrNoSuchKey) k3).
Proof.
  intros Hs. destruct (serving_stored k Hs) as [rows Hrows].
  destruct (Delete_serving n k rows Hs Hrows) as (k1 & HD & Hs1 & Hrows1 & _).
  exists k1. repeat split; try assumption.
  - destruct (Has_serving n k1 _ Hs1 Hrows1) as (k2 & HH & _).
    rewrite existsb_filter_out in HH. eauto.
  - destruct (Get_serving n k1 _ Hs1 Hrows1) as (k3 & HG & _).
    unfold Get_answer in HG. rewrite filter_filter_out in HG. eauto.
Qed.

(** C5. For every name [n] and key [priv]: right after [Put n priv]
    returned nil, [Has n] returns true with no error; and on an
    adapter in working order whose table has no row named [m],
    [Has m] returns false with no error. *)
Theorem Has_after_Put (n m : string) (priv : PrivKey)
    (k k1 ka : PGKeystore) (rows : list KeyRow) :
  (Put n (Some priv) k = Ret None k1 → reliable k1 = true →
   ∃ k2, Has n k1 = Ret (true, None) k2)
  ∧ (serving ka = true → stored ka = Some rows →
     Some m ∉ row_name <$> rows →
     ∃ kb, Has m ka = Ret (false, None) kb).
Proof.
  split.
  - intros (key & b & rows' & _ & Hm & Hrows & _ & Hs & _)%Put_nil_inv Hrel.
    destruct (Has_serving n k1 _ (Hs Hrel) Hrows) as (k2 & HH & _).
    rewrite existsb_upsert in HH. eauto.
  - intros Hs Hrows Habs.
    destruct (Has_serving m ka _ Hs Hrows) as (kb & HH & _).
    rewrite existsb_absent in HH by assumption. eauto.
Qed.
(** C8. An adapter built by [NewKeystore] without options has the table
    name "keys", and whatever methods are then called on it, in
    whatever order, the table name is still "keys". *)
Theorem default_table_kept
    (pgxpool_Connect : string → option Pool * option error)
    (connString : string) (k : PGKeystore) :
  NewKeystore pgxpool_Connect connString [] = (Some k, None) →
  table k = "keys"
  ∧ ∀ (cs : list Call) (k' : PGKeystore),
      calls cs k = Ret () k' → table k' = "keys".
Proof.
  unfold NewKeystore, Apply. simpl.
  destruct (pgxpool_Connect connString) as [p [e|]]; [discriminate|].
  intros [= <-]. simpl. split; [reflexivity|].
  intros cs k' Hcs. now apply calls_table in Hcs.
Qed.
End contract.

(** On an adapter in working order [List] returns, with no error, the
    names before the first row whose name does not scan, and leaves the
    table as it was. *)
Lemma List_listed (k : PGKeystore) (rows : list KeyRow) :
  serving k = true → stored k = Some rows →
  ∃ k', List k = Ret (listed rows, None) k' ∧ stored k' = Some rows.
Proof.
  intros Hs Hrows.
  destruct (List_serving k rows Hs Hrows) as (k' & HL & _ & Hrows' & _). eauto.
Qed.

(** C6. [List] on the table with the rows [bar], a row whose name is
    NULL, and [foo], on an adapter in working order: it returns [bar]
    alone, with no error.  The row whose name does not scan is not
    skipped: the failed [rows.Scan] closes the rows, the [continue]
    meets a [rows.Next()] that is false, and [foo] is never reached. *)
Theorem List_ends_at_failed_scan :
  serving sample_foo = true
  ∧ stored sample_foo
    = Some [ {| row_name := Some "bar"; row_data := Some [x08; x02] |};
             {| row_name := None; row_data := Some [x08; x03] |};
             {| row_name := Some "foo"; row_data := Some [x08; x01] |} ]
  ∧ ∃ k', List sample_foo = Ret (["bar"], None) k'.
Proof.
  split; [vm_compute; reflexivity|]. split; [vm_compute; reflexivity|].
  destruct (List_listed sample_foo
              [ {| row_name := Some "bar"; row_data := Some [x08; x02] |};
                {| row_name := None; row_data := Some [x08; x03] |};
                {| row_name := Some "foo"; row_data := Some [x08; x01] |} ])
    as (k' & HL & _); [vm_compute; reflexivity ..|].
  exists k'. exact HL.
Qed.

(** C7, as the code has it.  [Has] maps the outcome of its query: "no
    rows" from the driver gives [(false, ErrNoSuchKey)]; a failure [e]
    that comes before any record is read gives [(false, e)]; a record
    holding the boolean [b], read to its end, gives [(b, nil)]; and a
    failure [e] that comes after the record was read, while the row is
    closed, gives [(b, e)], the boolean that was read together with the
    error.  [Has] returns true together with an error in this last
    case only. *)
Theorem Has_results (name : string) (k : PGKeystore) (p : Pool) :
  pool k = Some p →
  let sql := Sprintf "SELECT exists(SELECT 1 FROM %s WHERE name = $1)" (table k) in
  let row := (QueryRow sql [VText name] p).1 in
  let k' := {| table := table k; pool := Some (QueryRow sql [VText name] p).2 |} in
  Has name k = Ret (Has_answer row) k'
  ∧ ∀ (e : error) (k'' : PGKeystore),
      Has name k = Ret (true, Some e) k'' →
      ∃ recs e', row = Records ([VBool true] :: recs) (Some e').
Proof.
  intros Hp sql row k'.
  assert (HH : Has name k = Ret (Has_answer row) k').
  { unfold Has, k_table, k_pool, mbind, M_bind. rewrite Hp.
    subst row k'. fold sql.
    destruct (QueryRow sql [VText name] p) as [r p']. simpl.
    destruct r as [[]|[|[|[] []] ?] [[]|]]; reflexivity. }
  split; [exact HH|]. rewrite HH. intros e k''. unfold Has_answer.
  destruct row as [[]|[|[|[] []] ?] [[]|]]; intros [= ? ?]; subst; eauto.
Qed.

(** C7, as the claim has it, fails: on a connection that breaks after
    the record of the existence query was read, [Has] returns true
    together with the error. *)
Lemma Has_true_with_error :
  ¬ (∀ (name : string) (k k' : PGKeystore) (b : bool) (e : error),
       Has name k = Ret (b, Some e) k' → b = false).
Proof.
  intros Hnever.
  assert (HH : Has "bar" (sample_broken 1)
               = Ret (true, Some (Errorf "connection reset"))
                   (left_by (Has "bar" (sample_broken 1)) (sample_broken 1)))
    by (vm_compute; reflexivity).
  apply Hnever in HH. discriminate.
Qed.

(** ** Options *)

Lemma Apply_from_provided (opts : list Option) (i : nat) (o : Options) :
  Forall provided opts →
  ∃ o', Apply_from i opts o = (o', None)
        ∧ (Options_Table o ≠ "" → Options_Table o' ≠ "").
Proof.
  intros Hall. revert i o.
  induction Hall as [|opt opts Hopt _ IH]; intros i o; cbn [Apply_from].
  - eauto.
  - destruct Hopt as [|t].
    + unfold OptionDefaults at 1.
      destruct (IH (S i) {| Options_Table := "keys" |}) as (o' & -> & Hne).
      exists o'. split; [reflexivity|]. intros _. now apply Hne.
    + unfold Table at 1. case_bool_decide as Ht; cbn beta iota.
      * destruct (IH (S i) {| Options_Table := t |}) as (o' & -> & Hne).
        exists o'. split; [reflexivity|]. intros _. now apply Hne.
      * destruct (IH (S i) o) as (o' & -> & Hne). eauto.
Qed.

Lemma Apply_from_Table_empty (n i : nat) (o : Options) :
  Apply_from i (replicate n (Table "")) o = (o, None).
Proof. revert i. induction n as [|n IH]; intros i; simpl; [reflexivity | apply IH]. Qed.

(** C9. [Table ""] leaves every options value as it is and returns nil.
    So [NewKeystore] called with [Table ""], any number of times, gives
    an adapter whose table name is the default "keys"; and called with
    whatever options the package provides ([Table t] for any [t], and
    [OptionDefaults]), it gives an adapter whose table name is not
    empty. *)
Theorem Table_empty_noop :
  (∀ o : Options, Table "" o = (o, None))
  ∧ (∀ pgxpool_Connect connString (n : nat) k,
       NewKeystore pgxpool_Connect connString (replicate n (Table ""))
       = (Some k, None) →
       table k = "keys")
  ∧ (∀ pgxpool_Connect connString (options : list Option) k,
       Forall provided options →
       NewKeystore pgxpool_Connect connString options = (Some k, None) →
       table k ≠ "").
Proof.
  split; [reflexivity|]. split.
  - intros Connect connString n k. unfold NewKeystore, Apply.
    cbn [Apply_from]. unfold OptionDefaults at 1.
    rewrite Apply_from_Table_empty.
    destruct (Connect connString) as [p [e|]]; [discriminate|].
    now intros [= <-].
  - intros Connect connString options k Hall. unfold NewKeystore, Apply.
    cbn [Apply_from]. unfold OptionDefaults at 1.
    destruct (Apply_from_provided options 1 {| Options_Table := "keys" |} Hall)
      as (o' & -> & Hne).
    destruct (Connect connString) as [p [e|]]; [discriminate|].
    intros [= <-]. simpl. now apply Hne.
Qed.

(** C10. [Close] returns nil on every adapter and leaves its table name
    as it was; on an adapter with a nil pool it does nothing at all. *)
Theorem Close_returns_nil (k : PGKeystore) :
  (∃ k', Close k = Ret None k' ∧ table k' = table k)
  ∧ Close {| table := table k; pool := None |}
    = Ret None {| table := table k; pool := None |}.
Proof.
  split; [|reflexivity]. unfold Close. destruct (pool k); eauto.
Qed.

(** * The contract at work on the sample deployment *)

Lemma Get_after_Put_sample :
  Put (codec := raw_keys) "foo" (Some [x01]) sample = Ret None sample_foo
  ∧ reliable sample_foo = true
  ∧ ∃ out k2, Get (codec := raw_keys) "foo" sample_foo = Ret (Some out, None) k2
              ∧ Equals (PrivKeyCodec := raw_keys) out [x01] = true.
Proof.
  split; [vm_compute; reflexivity|]. split; [vm_compute; reflexivity|].
  apply (Get_after_Put (round_trip := raw_keys_round_trip)
           "foo" [x01] sample sample_foo); vm_compute; reflexivity.
Defined.

Lemma Put_existing_name_sample :
  Put (codec := raw_keys) "foo" (Some [x01]) sample = Ret None sample_foo
  ∧ reliable sample_foo = true
  ∧ ∃ k2, Put (codec := raw_keys) "foo" (Some [x02]) sample_foo = Ret (Some ErrKeyExists) k2
          ∧ stored k2 = stored sample_foo
          ∧ ∃ out k3, Get (codec := raw_keys) "foo" k2 = Ret (Some out, None) k3
                      ∧ Equals (PrivKeyCodec := raw_keys) out [x01] = true.
Proof.
  split; [vm_compute; reflexivity|]. split; [vm_compute; reflexivity|].
  apply (Put_existing_name (round_trip := raw_keys_round_trip)
           "foo" [x01] (Some [x02]) sample sample_foo); vm_compute; reflexivity.
Defined.

Lemma Delete_then_absent_sample :
  serving sample = true
  ∧ ∃ k1, Delete "bar" sample = Ret None k1
          ∧ serving k1 = true
          ∧ (∃ k2, Has "bar" k1 = Ret (false, None) k2)
          ∧ (∃ k3, Get (codec := raw_keys) "bar" k1 = Ret (None, Some ErrNoSuchKey) k3).
Proof.
  split; [vm_compute; reflexivity|].
  apply (Delete_then_absent (codec := raw_keys) "bar" sample).
  vm_compute; reflexivity.
Defined.

Lemma Has_after_Put_sample :
  (Put (codec := raw_keys) "foo" (Some [x01]) sample = Ret None sample_foo
   ∧ reliable sample_foo = true
   ∧ ∃ k2, Has "foo" sample_foo = Ret (true, None) k2)
  ∧ (serving sample = true
     ∧ stored sample = Some [ {| row_name := Some "bar"; row_data := Some [x08; x02] |};
                              {| row_name := None; row_data := Some [x08; x03] |} ]
     ∧ ∃ kb, Has "foo" sample = Ret (false, None) kb).
Proof.
  pose proof (Has_after_Put (codec := raw_keys) "foo" "foo" [x01]
                sample sample_foo sample
                [ {| row_name := Some "bar"; row_data := Some [x08; x02] |};
                  {| row_name := None; row_data := Some [x08; x03] |} ])
    as [Hput Habsent].
  split.
  - split; [vm_compute; reflexivity|]. split; [vm_compute; reflexivity|].
    apply Hput; vm_compute; reflexivity.
  - split; [vm_compute; reflexivity|]. split; [vm_compute; reflexivity|].
    apply Habsent; [vm_compute; reflexivity | vm_compute; reflexivity |].
    apply (bool_decide_unpack _). vm_compute. exact I.
Defined.

Lemma Has_results_sample :
  Has "bar" (sample_broken 1)
  = Ret (true, Some (Errorf "connection reset"))
      {| table := "keys";
         pool := Some (QueryRow "SELECT exists(SELECT 1 FROM keys WHERE name = $1)"
                         [VText "bar"]
                         {| tables := tables sample_pool; closed := false;
                            faults := [Some (Broken 1 (Errorf "connection reset"))];
                            issued := [] |}).2 |}.
Proof.
  exact (proj1 (Has_results "bar" (sample_broken 1)
                  {| tables := tables sample_pool; closed := false;
                     faults := [Some (Broken 1 (Errorf "connection reset"))];
                     issued := [] |} eq_refl)).
Defined.

Lemma default_table_kept_sample :
  NewKeystore sample_Connect "postgres://localhost/keystore" []
  = (Some sample, None)
  ∧ ∀ k', calls (codec := raw_keys)
            [CallPut "foo" (Some [x01]); CallDelete "bar"; CallList; CallClose] sample
          = Ret () k' →
          table k' = "keys".
Proof.
  split; [vm_compute; reflexivity|].
  apply (default_table_kept (codec := raw_keys) sample_Connect
           "postgres://localhost/keystore" sample).
  vm_compute; reflexivity.
Defined.

Lemma Table_empty_noop_sample :
  (∃ k, NewKeystore sample_Connect "postgres://localhost/keystore"
          (replicate 1 (Table ""))
        = (Some k, None)
        ∧ table k = "keys")
  ∧ (∃ k, NewKeystore sample_Connect "postgres://localhost/keystore"
            [Table ""; Table "wallet"; OptionDefaults; Table "mykeys"]
          = (Some k, None)
          ∧ table k ≠ "").
Proof.
  destruct Table_empty_noop as (_ & Hkeys & Hnonempty). split.
  - exists sample. split; [vm_compute; reflexivity|].
    apply (Hkeys sample_Connect "postgres://localhost/keystore" 1 sample).
    vm_compute; reflexivity.
  - exists {| table := "mykeys"; pool := Some sample_pool |}.
    split; [vm_compute; reflexivity|].
    apply (Hnonempty sample_Connect "postgres://localhost/keystore"
             [Table ""; Table "wallet"; OptionDefaults; Table "mykeys"]).
    + repeat constructor.
    + vm_compute; reflexivity.
Defined.

(** * Runs *)

(** The package's own test passes on the model. *)
Example TestKeystoreBasics_passes :
  ∃ k', TestKeystoreBasics (codec := raw_keys) [x01] [x02] [x03] [x04] test_keystore
        = Ret None k'.
Proof. eexists. vm_compute. reflexivity. Qed.

(** What the assumptions of the contract keep out. *)

(** A method that needs the pool panics on a nil pool. *)
Example Has_nil_pool : Has "foo" {| table := "keys"; pool := None |} = Panic.
Proof. reflexivity. Qed.

(** After [Close] every request fails. *)
Example Has_after_Close :
  ∃ k', (Close ≫= λ _, Has "bar") sample = Ret (false, Some closed_pool) k'.
Proof. eexists. vm_compute. reflexivity. Qed.

(** Without the table every request fails. *)
Example List_without_table :
  ∃ k', List {| table := "blocks"; pool := Some sample_pool |}
        = Ret ([], Some (undefined_table "blocks")) k'.
Proof. eexists. vm_compute. reflexivity. Qed.

(** A request the connection fails: [Get] after a [Put] that returned
    nil returns the failure. *)
Example Get_on_timeout :
  Put (codec := raw_keys) "foo" (Some [x01]) sample = Ret None sample_foo
  ∧ ∃ k', Get (codec := raw_keys) "foo" sample_foo_timeout
          = Ret (None, Some (Errorf "timeout")) k'.
Proof. split; [|eexists]; vm_compute; reflexivity. Qed.

(** A driver that reports "no rows" for the existence query. *)
Example Has_on_no_rows :
  ∃ k', Has "bar" {| table := "keys";
                     pool := Some {| tables := tables sample_pool; closed := false;
                                     faults := [Some (Refused ErrNoRows)]; issued := [] |} |}
        = Ret (false, Some ErrNoSuchKey) k'.
Proof. eexists. vm_compute. reflexivity. Qed.

(** * More of the package's behaviour *)

(** ** Options and construction *)

Lemma Apply_from_app (before rest : list Option) (i : nat) (o o1 : Options) :
  Apply_from i before o = (o1, None) →
  Apply_from i (before ++ rest) o = Apply_from (i + length before) rest o1.
Proof.
  revert i o. induction before as [|opt before IH]; intros i o; simpl.
  - intros [= ->]. now rewrite Nat.add_0_r.
  - destruct (opt o) as [o' [e|]]; [discriminate|].
    intros Hb. rewrite (IH _ _ Hb). f_equal. lia.
Qed.

(** X1. [Apply] stops at the first option that fails: the options
    before it have been applied, the ones after it are not looked at,
    and the error names the position of the failing option in the
    list, counted from 0, and carries its message. *)
Theorem Apply_first_failure (before after : list Option) (opt : Option)
    (o o1 o2 : Options) (err : error) :
  Apply before o = (o1, None) →
  opt o1 = (o2, Some err) →
  Apply (before ++ opt :: after) o
  = (o2, Some (Errorf ("datastore option " +:+ pretty (length before)
                       +:+ " failed: " +:+ Error err))).
Proof.
  unfold Apply. intros Hb Hopt. rewrite (Apply_from_app _ _ _ _ _ Hb).
  simpl. now rewrite Hopt.
Qed.

Lemma Apply_first_failure_sample :
  Apply [Table "wallet"; failing_option; Table "other"] {| Options_Table := "" |}
  = ({| Options_Table := "wallet" |},
     Some (Errorf "datastore option 1 failed: no such option")).
Proof.
  apply (Apply_first_failure [Table "wallet"] [Table "other"] failing_option
           {| Options_Table := "" |} {| Options_Table := "wallet" |}
           {| Options_Table := "wallet" |} (Errorf "no such option"));
    vm_compute; reflexivity.
Defined.

(** Where the count starts does not matter to options that succeed. *)
Lemma Apply_from_index (opts : list Option) (i j : nat) (o o1 : Options) :
  Apply_from i opts o = (o1, None) → Apply_from j opts o = (o1, None).
Proof.
  revert i j o. induction opts as [|opt opts IH]; intros i j o; simpl; [easy|].
  destruct (opt o) as [o' [e|]]; [discriminate | apply IH].
Qed.

(** X2. When an option given to [NewKeystore] fails, [NewKeystore]
    returns no adapter and the error of [Apply], whatever the
    connection string reaches.  The position in the message is one more
    than the option's position among the options given, since
    [OptionDefaults] goes first. *)
Theorem NewKeystore_option_failure
    (pgxpool_Connect : string → option Pool * option error)
    (connString : string) (before after : list Option) (opt : Option)
    (o1 o2 : Options) (err : error) :
  Apply before {| Options_Table := "keys" |} = (o1, None) →
  opt o1 = (o2, Some err) →
  NewKeystore pgxpool_Connect connString (before ++ opt :: after)
  = (None, Some (Errorf ("datastore option " +:+ pretty (S (length before))
                         +:+ " failed: " +:+ Error err))).
Proof.
  intros Hb Hopt. unfold NewKeystore.
  change (OptionDefaults :: before ++ opt :: after)%list
    with ((OptionDefaults :: before) ++ opt :: after)%list.
  rewrite (Apply_first_failure (OptionDefaults :: before) after opt _ o1 o2 err);
    [reflexivity | | assumption].
  unfold Apply in *. cbn [Apply_from]. unfold OptionDefaults at 1.
  now apply (Apply_from_index before 0 1).
Qed.

Lemma NewKeystore_option_failure_sample :
  NewKeystore sample_Connect "postgres://localhost/keystore"
    [Table "wallet"; failing_option; Table "other"]
  = (None, Some (Errorf "datastore option 2 failed: no such option")).
Proof.
  apply (NewKeystore_option_failure sample_Connect "postgres://localhost/keystore"
           [Table "wallet"] [Table "other"] failing_option
           {| Options_Table := "wallet" |} {| Options_Table := "wallet" |}
           (Errorf "no such option"));
    vm_compute; reflexivity.
Defined.

Lemma Apply_from_Tables (ts : list string) (i : nat) (o : Options) :
  Apply_from i (Table <$> ts) o
  = ({| Options_Table := default (Options_Table o) (last (filter (λ t, t ≠ "") ts)) |},
     None).
Proof.
  revert i o. induction ts as [|t ts IH]; intros i o.
  - now destruct o.
  - rewrite fmap_cons. cbn [Apply_from]. unfold Table at 1.
    case_bool_decide as Ht; cbn beta iota; rewrite IH; cbn [Options_Table].
    + rewrite filter_cons_True by assumption.
      destruct (filter _ ts) as [|t' ts']; [reflexivity|].
      rewrite last_cons_cons.
      destruct (last (t' :: ts')) eqn:E; [reflexivity|].
      now apply last_None in E.
    + rewrite filter_cons_False; [reflexivity | tauto].
Qed.

(** X3. [NewKeystore] called with [Table] options: when the connection
    fails it returns no adapter and the error of [pgxpool.Connect];
    otherwise the adapter holds the pool [pgxpool.Connect] gave, and its
    table name is the last name given that is not empty, or "keys"
    when there is none. *)
Theorem NewKeystore_Tables
    (pgxpool_Connect : string → option Pool * option error)
    (connString : string) (ts : list string) :
  NewKeystore pgxpool_Connect connString (Table <$> ts)
  = match pgxpool_Connect connString with
    | (_, Some e) => (None, Some e)
    | (p, None) => (Some {| table := last_table ts; pool := p |}, None)
    end.
Proof.
  unfold NewKeystore, Apply. cbn [Apply_from]. unfold OptionDefaults at 1.
  rewrite Apply_from_Tables.
  now destruct (pgxpool_Connect connString) as [p [e|]].
Qed.

(** ** Rows under upsert and delete *)

Lemma named_inv (n : string) (r : KeyRow) : named n r = true → row_name r = Some n.
Proof. unfold named. now intros ?%bool_decide_eq_true. Qed.

Lemma named_other (n m : string) (r : KeyRow) :
  m ≠ n → named n r = true → named m r = false.
Proof.
  intros Hne Hn%named_inv. unfold named. rewrite Hn.
  apply bool_decide_eq_false. congruence.
Qed.

Lemma filter_upsert_other (n m : string) (d : bytes) (rows : list KeyRow) :
  m ≠ n →
  filter (λ r, named m r) (upsert n d rows) = filter (λ r, named m r) rows.
Proof.
  intros Hne. induction rows as [|r rows IH]; simpl.
  - rewrite filter_cons_False; [reflexivity|].
    unfold named. simpl. rewrite bool_decide_eq_false_2; [tauto | congruence].
  - destruct (named n r) eqn:E.
    + pose proof (named_other n m r Hne E) as Hm.
      rewrite !filter_cons_False; [reflexivity | now rewrite Hm |].
      unfold named in *. simpl. now rewrite Hm.
    + destruct (named m r) eqn:Em.
      * rewrite !filter_cons_True by now rewrite Em. now rewrite IH.
      * rewrite !filter_cons_False by now rewrite Em. apply IH.
Qed.

Lemma existsb_filter (n : string) (rows : list KeyRow) :
  existsb (named n) rows = true ↔ filter (λ r, named n r) rows ≠ [].
Proof.
  induction rows as [|r rows IH]; simpl; [easy|].
  destruct (named n r) eqn:E.
  - rewrite filter_cons_True by now rewrite E. easy.
  - rewrite filter_cons_False by now rewrite E. apply IH.
Qed.

Lemma existsb_same_filter (n : string) (rows rows' : list KeyRow) :
  filter (λ r, named n r) rows' = filter (λ r, named n r) rows →
  existsb (named n) rows' = existsb (named n) rows.
Proof.
  intros Hf. apply eq_true_iff_eq. rewrite !existsb_filter. now rewrite Hf.
Qed.

Lemma filter_delete_other (n m : string) (rows : list KeyRow) :
  m ≠ n →
  filter (λ r, named m r) (filter (λ r, ¬ named n r) rows)
  = filter (λ r, named m r) rows.
Proof.
  intros Hne. induction rows as [|r rows IH]; [reflexivity|].
  destruct (named n r) eqn:E.
  - pose proof (named_other n m r Hne E) as Hm.
    rewrite (filter_cons_False (λ r, ¬ named n r)) by (rewrite E; simpl; tauto).
    rewrite (filter_cons_False (λ r, named m r)) by now rewrite Hm.
    apply IH.
  - rewrite (filter_cons_True (λ r, ¬ named n r)) by (rewrite E; simpl; tauto).
    destruct (named m r) eqn:Em.
    + rewrite !filter_cons_True by now rewrite Em. now rewrite IH.
    + rewrite !filter_cons_False by now rewrite Em. apply IH.
Qed.

Lemma filter_delete_twice (n : string) (rows : list KeyRow) :
  filter (λ r, ¬ named n r) (filter (λ r, ¬ named n r) rows)
  = filter (λ r, ¬ named n r) rows.
Proof.
  induction rows as [|r rows IH]; [reflexivity|].
  destruct (named n r) eqn:E.
  - rewrite (filter_cons_False _ r) by (rewrite E; simpl; tauto). apply IH.
  - rewrite !(filter_cons_True _ r) by (rewrite E; simpl; tauto). now rewrite IH.
Qed.

Lemma upsert_fresh (n : string) (d : bytes) (rows : list KeyRow) :
  existsb (named n) rows = false →
  upsert n d rows = (rows ++ [ {| row_name := Some n; row_data := Some d |} ])%list.
Proof.
  induction rows as [|r rows IH]; simpl; [reflexivity|].
  destruct (named n r); simpl; [discriminate|]. intros Hr. now rewrite IH.
Qed.

Lemma names_cons (r : KeyRow) (rows : list KeyRow) :
  names (r :: rows)
  = match row_name r with
    | Some m => m :: names rows
    | None => names rows
    end.
Proof. reflexivity. Qed.

Lemma names_upsert (n : string) (d : bytes) (rows : list KeyRow) :
  names (upsert n d rows)
  = if existsb (named n) rows then names rows else (names rows ++ [n])%list.
Proof.
  induction rows as [|r rows IH]; [reflexivity|].
  cbn [upsert existsb]. destruct (named n r) eqn:E; cbn [orb].
  - reflexivity.
  - rewrite !names_cons, IH.
    destruct (row_name r), (existsb (named n) rows); reflexivity.
Qed.

Lemma names_delete (n : string) (rows : list KeyRow) :
  names (filter (λ r, ¬ named n r) rows) = filter (λ m, m ≠ n) (names rows).
Proof.
  induction rows as [|r rows IH]; [reflexivity|].
  destruct (named n r) eqn:E.
  - rewrite (filter_cons_False _ r) by (rewrite E; simpl; tauto).
    apply named_inv in E. rewrite names_cons, E.
    rewrite filter_cons_False by tauto. apply IH.
  - rewrite (filter_cons_True _ r) by (rewrite E; simpl; tauto).
    rewrite !names_cons. destruct (row_name r) as [m|] eqn:Hm; [|apply IH].
    rewrite filter_cons_True; [now rewrite IH|].
    intros ->. unfold named in E. rewrite Hm in E.
    now rewrite bool_decide_eq_true_2 in E.
Qed.

Lemma elem_of_names (n : string) (rows : list KeyRow) :
  n ∈ names rows ↔ existsb (named n) rows = true.
Proof.
  unfold names. rewrite list_elem_of_omap. rewrite existsb_exists. split.
  - intros (r & Hr%list_elem_of_In & Hn). exists r. split; [assumption|].
    unfold named. now apply bool_decide_eq_true.
  - intros (r & Hr%list_elem_of_In & Hn%named_inv). eauto.
Qed.

(** ** The names [List] reaches *)

Lemma listed_all_named (rows : list KeyRow) :
  all_named rows = true → listed rows = names rows.
Proof.
  unfold all_named. induction rows as [|r rows IH]; [reflexivity|].
  cbn [forallb listed]. rewrite andb_true_iff, bool_decide_eq_true.
  intros [[n Hn] Hrows]. rewrite names_cons, Hn. now rewrite IH.
Qed.

Lemma elem_of_listed (n : string) (rows : list KeyRow) :
  n ∈ listed rows → n ∈ names rows.
Proof.
  induction rows as [|r rows IH]; [easy|].
  cbn [listed]. rewrite names_cons. destruct (row_name r) as [m|]; [|easy].
  rewrite !elem_of_cons. intros [->|Hin]; auto.
Qed.

Lemma listed_delete (n : string) (rows : list KeyRow) :
  listed (filter (λ r, ¬ named n r) rows) = filter (λ m, m ≠ n) (listed rows).
Proof.
  induction rows as [|r rows IH]; [reflexivity|].
  destruct (named n r) eqn:E.
  - rewrite (filter_cons_False _ r) by (rewrite E; simpl; tauto).
    apply named_inv in E. simpl. rewrite E.
    rewrite filter_cons_False by tauto. apply IH.
  - rewrite (filter_cons_True _ r) by (rewrite E; simpl; tauto).
    simpl. destruct (row_name r) as [m|] eqn:Hm; [|reflexivity].
    rewrite filter_cons_True; [now rewrite IH|].
    intros ->. unfold named in E. rewrite Hm in E.
    now rewrite bool_decide_eq_true_2 in E.
Qed.

Lemma all_named_upsert (n : string) (d : bytes) (rows : list KeyRow) :
  all_named rows = true → all_named (upsert n d rows) = true.
Proof.
  unfold all_named. induction rows as [|r rows IH]; cbn [upsert forallb].
  - reflexivity.
  - rewrite andb_true_iff. intros [Hr Hrows].
    destruct (named n r); cbn [forallb row_name]; rewrite andb_true_iff; auto.
Qed.

(** ** How the methods compose *)

Lemma Has_result (n : string) (k : PGKeystore) (rows : list KeyRow) :
  serving k = true → stored k = Some rows →
  result (Has n k) = Some (existsb (named n) rows, None).
Proof.
  intros Hs Hr. destruct (Has_serving n k rows Hs Hr) as (k' & -> & _).
  reflexivity.
Qed.

Lemma List_result (k : PGKeystore) (rows : list KeyRow) :
  serving k = true → stored k = Some rows →
  result (List k) = Some (listed rows, None).
Proof.
  intros Hs Hr. destruct (List_serving k rows Hs Hr) as (k' & -> & _).
  reflexivity.
Qed.

Section composition.
Context {PrivKey : Type} {codec : PrivKeyCodec PrivKey}.

Lemma Get_result (n : string) (k : PGKeystore) (rows : list KeyRow) :
  serving k = true → stored k = Some rows →
  result (Get n k) = Some (Get_answer n rows).
Proof.
  intros Hs Hr. destruct (Get_serving n k rows Hs Hr) as (k' & -> & _).
  reflexivity.
Qed.

Lemma Get_answer_same (n : string) (rows rows' : list KeyRow) :
  filter (λ r, named n r) rows' = filter (λ r, named n r) rows →
  Get_answer n rows' = Get_answer n rows.
Proof. unfold Get_answer. now intros ->. Qed.

(** What a [Put] on an adapter in working order leaves, whatever it
    returned. *)
Lemma Put_leaves (n : string) (priv : option PrivKey) (k k1 : PGKeystore)
    (e : option error) (rows : list KeyRow) :
  serving k = true → stored k = Some rows → Put n priv k = Ret e k1 →
  serving k1 = true
  ∧ ∃ rows1, stored k1 = Some rows1
             ∧ (rows1 = rows ∧ is_Some e
                ∨ ∃ key b, priv = Some key ∧ e = None
                           ∧ MarshalPrivateKey key = (b, None)
                           ∧ existsb (named n) rows = false
                           ∧ rows1 = upsert n b rows).
Proof.
  intros Hs Hr HP. destruct (decide (n = "")) as [->|Hn].
  - injection HP as <- <-. eauto 10.
  - destruct priv as [key|].
    + destruct (Put_serving n key k rows Hn Hs Hr) as (k' & HP' & Hs' & Hr' & _).
      rewrite HP' in HP. injection HP as He <-. split; [assumption|].
      eexists. split; [eassumption|]. revert He. unfold Put_answer.
      destruct (existsb (named n) rows); [intros <-; left; eauto|].
      destruct (MarshalPrivateKey key) as [b [e'|]] eqn:Hm; [intros <-; left; eauto|].
      simpl. intros <-. right. exists key, b. rewrite Hm. auto 10.
    + pose proof (Put_nil_key_serving n k rows Hn Hs Hr) as Hnil.
      destruct (existsb (named n) rows).
      * destruct Hnil as (k' & HP' & Hs' & Hr' & _).
        rewrite HP' in HP. injection HP as <- <-. eauto 10.
      * rewrite Hnil in HP. discriminate.
Qed.

(** X4. On an adapter in working order a [Put] under the name [n],
    whatever it returns, changes no other name: for every [m] other
    than [n], [Has m] and [Get m] return after it what they returned
    before it, and the adapter is still in working order. *)
Theorem Put_other_names (n m : string) (priv : option PrivKey) (k k1 : PGKeystore)
    (e : option error) :
  serving k = true → Put n priv k = Ret e k1 → m ≠ n →
  serving k1 = true
  ∧ result (Has m k1) = result (Has m k)
  ∧ result (Get m k1) = result (Get m k).
Proof.
  intros Hs HP Hne. destruct (serving_stored k Hs) as [rows Hr].
  destruct (Put_leaves n priv k k1 e rows Hs Hr HP) as (Hs1 & rows1 & Hr1 & Hrows).
  assert (Hf : filter (λ r, named m r) rows1 = filter (λ r, named m r) rows).
  { destruct Hrows as [[-> _]|(key & b & _ & _ & _ & _ & ->)]; [reflexivity|].
    now apply filter_upsert_other. }
  split; [assumption|].
  rewrite (Has_result m k1 rows1), (Has_result m k rows) by assumption.
  rewrite (Get_result m k1 rows1), (Get_result m k rows) by assumption.
  now rewrite (existsb_same_filter _ _ _ Hf), (Get_answer_same _ _ _ Hf).
Qed.

(** X5. On an adapter in working order [Delete n] changes no other
    name: for every [m] other than [n], [Has m] and [Get m] return
    after it what they returned before it. *)
Theorem Delete_other_names (n m : string) (k k1 : PGKeystore) (e : option error) :
  serving k = true → Delete n k = Ret e k1 → m ≠ n →
  serving k1 = true
  ∧ result (Has m k1) = result (Has m k)
  ∧ result (Get m k1) = result (Get m k).
Proof.
  intros Hs HD Hne. destruct (serving_stored k Hs) as [rows Hr].
  destruct (Delete_serving n k rows Hs Hr) as (k' & HD' & Hs1 & Hr1 & _).
  rewrite HD' in HD. injection HD as _ <-. split; [assumption|].
  pose proof (filter_delete_other n m rows Hne) as Hf.
  rewrite (Has_result m k' _ Hs1 Hr1), (Has_result m k rows) by assumption.
  rewrite (Get_result m k' _ Hs1 Hr1), (Get_result m k rows) by assumption.
  now rewrite (existsb_same_filter _ _ _ Hf), (Get_answer_same _ _ _ Hf).
Qed.

(** X6. [Delete] is idempotent: on an adapter in working order a second
    [Delete n] returns nil like the first and leaves the rows the first
    one left. *)
Theorem Delete_twice (n : string) (k : PGKeystore) :
  serving k = true →
  ∃ k1 k2, Delete n k = Ret None k1
           ∧ Delete n k1 = Ret None k2
           ∧ stored k2 = stored k1.
Proof.
  intros Hs. destruct (serving_stored k Hs) as [rows Hr].
  destruct (Delete_serving n k rows Hs Hr) as (k1 & HD1 & Hs1 & Hr1 & _).
  destruct (Delete_serving n k1 _ Hs1 Hr1) as (k2 & HD2 & _ & Hr2 & _).
  exists k1, k2. repeat split; try assumption.
  now rewrite Hr2, Hr1, filter_delete_twice.
Qed.

(** X7. A name that is taken is free again after [Delete]: on an
    adapter in working order, for a non-empty name [n] and a key the
    codec marshals, [Delete n] and then [Put n priv] both return nil,
    and [Get n] then returns a key equal to [priv], whatever was stored
    under [n] before. *)
Theorem Put_after_Delete {round_trip : CodecRoundTrip PrivKey}
    (n : string) (priv : PrivKey) (b : bytes) (k : PGKeystore) :
  serving k = true → n ≠ "" → MarshalPrivateKey priv = (b, None) →
  ∃ k1 k2, Delete n k = Ret None k1
           ∧ Put n (Some priv) k1 = Ret None k2
           ∧ ∃ out k3, Get n k2 = Ret (Some out, None) k3
                       ∧ Equals out priv = true.
Proof.
  intros Hs Hn Hm. destruct (serving_stored k Hs) as [rows Hr].
  destruct (Delete_serving n k rows Hs Hr) as (k1 & HD & Hs1 & Hr1 & _).
  destruct (Put_serving n priv k1 _ Hn Hs1 Hr1) as (k2 & HP & Hs2 & Hr2 & _).
  unfold Put_answer in HP, Hr2. rewrite existsb_filter_out, Hm in HP, Hr2.
  exists k1, k2. repeat split; try assumption.
  destruct (Get_serving n k2 _ Hs2 Hr2) as (k3 & HG & _).
  destruct (filter_upsert n b (filter (λ r, ¬ named n r) rows))
    as (r & rest & Hf & Hd).
  destruct (unmarshal_marshal priv b Hm) as (out & Hu & He).
  exists out, k3. split; [|assumption].
  rewrite HG. unfold Get_answer. simpl. now rewrite Hf, Hd, <- Hu.
Qed.

(** X8. [Put] under a new name: on an adapter in working order, for a
    non-empty name that no row carries and a key the codec marshals to
    [b], [Put] returns nil and the table has one more row, at its end,
    with that name and [b] as data. *)
Theorem Put_new_name (n : string) (priv : PrivKey) (b : bytes)
    (k : PGKeystore) (rows : list KeyRow) :
  serving k = true → stored k = Some rows →
  n ≠ "" → n ∉ names rows → MarshalPrivateKey priv = (b, None) →
  ∃ k1, Put n (Some priv) k = Ret None k1
        ∧ serving k1 = true
        ∧ stored k1
          = Some (rows ++ [ {| row_name := Some n; row_data := Some b |} ])%list.
Proof.
  intros Hs Hr Hn Hfresh Hm.
  assert (Hex : existsb (named n) rows = false).
  { apply not_true_is_false. now rewrite <- elem_of_names. }
  destruct (Put_serving n priv k rows Hn Hs Hr) as (k1 & HP & Hs1 & Hr1 & _).
  unfold Put_answer in HP, Hr1. rewrite Hex, Hm in HP, Hr1.
  exists k1. repeat split; try assumption.
  now rewrite Hr1, upsert_fresh.
Qed.

(** X9. [Put] under a non-empty name that is taken, by whatever row: on
    an adapter in working order it returns [ErrKeyExists], also for a
    key the codec cannot marshal and for a nil key (the name is checked
    first), and the rows are left as they were. *)
Theorem Put_taken_name (n : string) (priv : option PrivKey) (k : PGKeystore)
    (rows : list KeyRow) :
  serving k = true → stored k = Some rows → n ≠ "" → n ∈ names rows →
  ∃ k1, Put n priv k = Ret (Some ErrKeyExists) k1
        ∧ serving k1 = true
        ∧ stored k1 = Some rows.
Proof.
  intros Hs Hr Hn Hin%elem_of_names.
  destruct (Put_taken_serving n priv k rows Hn Hs Hr Hin) as (k1 & HP & Hs1 & Hr1 & _).
  eauto.
Qed.

(** X10. [Put] of a key the codec cannot marshal, under a non-empty
    name that is free: on an adapter in working order it returns the
    error of [MarshalPrivateKey] and the rows are left as they were. *)
Theorem Put_unmarshalable (n : string) (priv : PrivKey) (b : bytes) (e : error)
    (k : PGKeystore) (rows : list KeyRow) :
  serving k = true → stored k = Some rows →
  n ≠ "" → n ∉ names rows → MarshalPrivateKey priv = (b, Some e) →
  ∃ k1, Put n (Some priv) k = Ret (Some e) k1
        ∧ serving k1 = true
        ∧ stored k1 = Some rows.
Proof.
  intros Hs Hr Hn Hfresh Hm.
  assert (Hex : existsb (named n) rows = false).
  { apply not_true_is_false. now rewrite <- elem_of_names. }
  destruct (Put_serving n priv k rows Hn Hs Hr) as (k1 & HP & Hs1 & Hr1 & _).
  unfold Put_answer in HP, Hr1. rewrite Hex, Hm in HP, Hr1. eauto.
Qed.

(** X11. [Has] and [Get] agree: on an adapter in working order, either
    [Has n] returns false and [Get n] returns [ErrNoSuchKey], or
    [Has n] returns true and [Get n] returns what
    [UnmarshalPrivateKey] makes of the data of a row named [n] (of
    the empty bytes when the data is NULL). *)
Theorem Has_Get_agree (n : string) (k : PGKeystore) :
  serving k = true →
  (result (Has n k) = Some (false, None)
   ∧ result (Get n k) = Some (None, Some ErrNoSuchKey))
  ∨ (result (Has n k) = Some (true, None)
     ∧ ∃ r rows, stored k = Some rows ∧ r ∈ rows ∧ row_name r = Some n
                 ∧ result (Get n k)
                   = Some (UnmarshalPrivateKey (default [] (row_data r)))).
Proof.
  intros Hs. destruct (serving_stored k Hs) as [rows Hr].
  rewrite (Has_result n k rows), (Get_result n k rows) by assumption.
  unfold Get_answer.
  destruct (filter (λ r, named n r) rows) as [|r rest] eqn:Hf.
  - left. split; [|reflexivity]. f_equal. f_equal.
    apply not_true_is_false. rewrite existsb_filter. now rewrite Hf.
  - right. split.
    + f_equal. f_equal. apply existsb_filter. now rewrite Hf.
    + assert (Hin : r ∈ filter (λ r, named n r) rows) by (rewrite Hf; left).
      apply list_elem_of_filter in Hin as [Hnamed Hin].
      exists r, rows. repeat split; try assumption.
      apply named_inv. now apply Is_true_true.
Qed.
End composition.

(** X12. [List] and [Has] agree: on an adapter in working order [List]
    returns, with no error, a list of names for each of which [Has]
    returns true; and when every row of the table has a name, the list
    holds every name for which [Has] returns true. *)
Theorem List_Has_agree (k : PGKeystore) (rows : list KeyRow) :
  serving k = true → stored k = Some rows →
  ∃ l, result (List k) = Some (l, None)
       ∧ (∀ n, n ∈ l → result (Has n k) = Some (true, None))
       ∧ (all_named rows = true →
          ∀ n, result (Has n k) = Some (true, None) → n ∈ l).
Proof.
  intros Hs Hr. exists (listed rows). split; [now apply List_result|].
  split.
  - intros n Hin%elem_of_listed%elem_of_names.
    rewrite (Has_result n k rows) by assumption. now rewrite Hin.
  - intros Hall n. rewrite (Has_result n k rows) by assumption.
    rewrite (listed_all_named rows Hall), elem_of_names. now intros [= ->].
Qed.

(** X13. [List] after [Delete]: on an adapter in working order
    [List] returns after [Delete n] what it returned before, without
    [n] and in the same order. *)
Theorem List_after_Delete (n : string) (k k1 : PGKeystore) (e : option error) :
  serving k = true → Delete n k = Ret e k1 →
  ∃ l, result (List k) = Some (l, None)
       ∧ result (List k1) = Some (filter (λ m, m ≠ n) l, None).
Proof.
  intros Hs HD. destruct (serving_stored k Hs) as [rows Hr].
  destruct (Delete_serving n k rows Hs Hr) as (k' & HD' & Hs1 & Hr1 & _).
  rewrite HD' in HD. injection HD as _ <-.
  exists (listed rows). split; [now apply List_result|].
  rewrite (List_result k' _ Hs1 Hr1). now rewrite listed_delete.
Qed.

Section listing.
Context {PrivKey : Type} {codec : PrivKeyCodec PrivKey}.

(** X14. [List] after [Put]: on an adapter in working order on whose
    table every row has a name, when [Put n priv] returned nil, [n]
    was not among the names [List] returned before, and [List] now
    returns those names and [n], each as often as before (a
    permutation of [n] put in front of them). *)
Theorem List_after_Put (n : string) (priv : option PrivKey) (k k1 : PGKeystore)
    (rows : list KeyRow) :
  serving k = true → stored k = Some rows → all_named rows = true →
  Put n priv k = Ret None k1 →
  ∃ l l1, result (List k) = Some (l, None)
          ∧ result (List k1) = Some (l1, None)
          ∧ (n ∉ l)
          ∧ l1 ≡ₚ n :: l.
Proof.
  intros Hs Hr Hall HP.
  destruct (Put_leaves n priv k k1 None rows Hs Hr HP) as (Hs1 & rows1 & Hr1 & Hrows).
  destruct Hrows as [[_ [? [=]]]|(key & b & _ & _ & Hm & Hex & ->)].
  exists (listed rows), (listed (upsert n b rows)).
  repeat split; try now apply List_result.
  - intros Hin%elem_of_listed%elem_of_names. congruence.
  - rewrite (listed_all_named _ (all_named_upsert n b rows Hall)).
    rewrite (listed_all_named _ Hall), names_upsert, Hex.
    symmetry. apply Permutation_cons_append.
Qed.
End listing.

(** ** What a request can do to the pool *)

Lemma eval_tables (st : Stmt) (args : list Value) (db : gmap string (list KeyRow)) :
  (eval st args db).2 = db
  ∨ ∃ rows rows', db !! stmt_table st = Some rows ∧ rewrites rows rows'
                  ∧ (eval st args db).1 = Records [] None
                  ∧ (eval st args db).2 = <[stmt_table st := rows']> db.
Proof.
  destruct st as [t|t|t|t|t]; simpl.
  - destruct args as [|[] [|]]; simpl; auto; destruct (db !! t); auto.
  - destruct args as [|[] [|[] [|]]]; simpl; auto.
    destruct (db !! t) as [rows|] eqn:E; simpl; auto.
    right. exists rows, (upsert s b rows). repeat split. constructor.
  - destruct args as [|[] [|]]; simpl; auto; destruct (db !! t); auto.
  - destruct args as [|[] [|]]; simpl; auto.
    destruct (db !! t) as [rows|] eqn:E; simpl; auto.
    right. exists rows, (filter (λ r, ¬ named s r) rows). repeat split. constructor.
  - destruct args as [|]; simpl; auto; destruct (db !! t); auto.
Qed.

Lemma eval_failed (st : Stmt) (args : list Value) (db : gmap string (list KeyRow))
    (e : error) :
  (eval st args db).1 = Failed e → (eval st args db).2 = db.
Proof.
  destruct (eval_tables st args db) as [|(? & ? & _ & _ & -> & _)];
    [auto | discriminate].
Qed.

(** The statements that only read. *)
Lemma eval_reads (st : Stmt) (args : list Value) (db : gmap string (list KeyRow)) :
  (∀ t, st ≠ InsertUpsert t) → (∀ t, st ≠ DeleteWhere t) →
  (eval st args db).2 = db.
Proof.
  intros Hi Hd. destruct st as [t|t|t|t|t]; simpl;
    try (now destruct (Hi t)); try (now destruct (Hd t)).
  - destruct args as [|[] [|]]; simpl; auto; destruct (db !! t); auto.
  - destruct args as [|[] [|]]; simpl; auto; destruct (db !! t); auto.
  - destruct args as [|]; simpl; auto; destruct (db !! t); auto.
Qed.

Lemma arrives_failed (fault : option Fault) (reply : Reply) (e : error) :
  arrives fault reply = Failed e → reply = Failed e.
Proof. now destruct fault as [[|]|], reply. Qed.

(** A request, taken apart: the log grows by the request, the pool stays
    open or closed as it was, and either the request failed before the
    statement ran and the database is untouched, or the statement was
    answered by [eval] and its reply came as the connection let it. *)
Lemma request_effect (sql : string) (args : list Value) (p : Pool) :
  closed (request sql args p).2 = closed p
  ∧ issued (request sql args p).2 = (sql, args) :: issued p
  ∧ (tables (request sql args p).2 = tables p
       ∧ (∃ e, (request sql args p).1 = Failed e)
     ∨ ∃ st fault, parse sql = Some st
             ∧ (request sql args p).1 = arrives fault (eval st args (tables p)).1
             ∧ tables (request sql args p).2 = (eval st args (tables p)).2).
Proof.
  assert (Hparse : ∀ pending,
    let r := match parse sql with
             | Some st =>
                 let '(reply, db) := eval st args (tables p) in
                 (arrives (mjoin (head pending)) reply,
                  {| tables := db; closed := false; faults := tail pending;
                     issued := (sql, args) :: issued p |})
             | None =>
                 (Failed syntax_error,
                  {| tables := tables p; closed := false; faults := tail pending;
                     issued := (sql, args) :: issued p |})
             end in
    closed r.2 = false ∧ issued r.2 = (sql, args) :: issued p
    ∧ (tables r.2 = tables p ∧ (∃ e, r.1 = Failed e)
       ∨ ∃ st fault, parse sql = Some st
               ∧ r.1 = arrives fault (eval st args (tables p)).1
               ∧ tables r.2 = (eval st args (tables p)).2)).
  { intros pending. destruct (parse sql) as [st|]; cbv zeta.
    - destruct (eval st args (tables p)) as [r db] eqn:E.
      split; [reflexivity|]. split; [reflexivity|].
      right. exists st, (mjoin (head pending)). now rewrite E.
    - split; [reflexivity|]. split; [reflexivity|].
      left. split; [reflexivity|]. now eexists. }
  unfold request. destruct (closed p) eqn:Hc.
  - split; [reflexivity|]. split; [reflexivity|].
    left. split; [reflexivity|]. now eexists.
  - destruct (faults p) as [|[[e|n e]|] rest].
    + apply (Hparse []).
    + split; [reflexivity|]. split; [reflexivity|].
      left. split; [reflexivity|]. now eexists.
    + apply (Hparse (Some (Broken n e) :: rest)).
    + apply (Hparse (None :: rest)).
Qed.

Lemma request_failed (sql : string) (args : list Value) (p : Pool) (e : error) :
  (request sql args p).1 = Failed e → tables (request sql args p).2 = tables p.
Proof.
  intros Hf.
  destruct (request_effect sql args p)
    as (_ & _ & [[Ht _]|(st & fault & _ & Hr & Ht)]); [assumption|].
  rewrite Ht. apply (eval_failed _ _ _ e).
  apply (arrives_failed fault). now rewrite <- Hr.
Qed.

Lemma request_reads (sql : string) (args : list Value) (p : Pool) (st : Stmt) :
  parse sql = Some st →
  (∀ t, st ≠ InsertUpsert t) → (∀ t, st ≠ DeleteWhere t) →
  tables (request sql args p).2 = tables p.
Proof.
  intros Hp Hi Hd.
  destruct (request_effect sql args p)
    as (_ & _ & [[Ht _]|(st' & fault & Hp' & _ & Ht)]); [assumption|].
  rewrite Ht. rewrite Hp in Hp'. injection Hp' as <-. now apply eval_reads.
Qed.

Lemma request_rewrites (sql : string) (args : list Value) (p : Pool) (st : Stmt) :
  parse sql = Some st →
  tables (request sql args p).2 = tables p
  ∨ ∃ rows rows', tables p !! stmt_table st = Some rows ∧ rewrites rows rows'
                  ∧ tables (request sql args p).2
                    = <[stmt_table st := rows']> (tables p).
Proof.
  intros Hp.
  destruct (request_effect sql args p)
    as (_ & _ & [[Ht _]|(st' & fault & Hp' & _ & Ht)]); [now left|].
  rewrite Hp in Hp'. injection Hp' as <-. rewrite Ht.
  destruct (eval_tables st args (tables p)) as [|(rows & rows' & ? & ? & _ & ?)];
    [now left | right; eauto].
Qed.

(** ** The requests each method sends *)

Lemma k_pool_request {A} (f : Pool → A * Pool) (sql : string) (args : list Value)
    (k k' : PGKeystore) (a : A) :
  (∀ p, (f p).2 = (request sql args p).2) →
  k_pool f k = Ret a k' →
  ∃ p, pool k = Some p ∧ a = (f p).1 ∧ k' = sent sql args k.
Proof.
  intros Hf. unfold k_pool, sent. destruct (pool k) as [p|]; [|discriminate].
  specialize (Hf p). destruct (f p) as [a' p'] eqn:E. simpl in Hf.
  intros [= <- <-]. exists p. rewrite E. simpl. rewrite Hf. auto.
Qed.

Lemma Exec_request (sql : string) (args : list Value) (p : Pool) :
  (Exec sql args p).2 = (request sql args p).2
  ∧ (Exec sql args p).1 = reported (request sql args p).1.
Proof. unfold Exec. now destruct (request sql args p) as [[e|recs err] p']. Qed.

Lemma Query_request (sql : string) (args : list Value) (p : Pool) :
  (Query sql args p).2 = (request sql args p).2.
Proof. unfold Query. now destruct (request sql args p) as [[e|recs err] p']. Qed.

Lemma Has_sends (n : string) (k k' : PGKeystore) (r : bool * option error) :
  Has n k = Ret r k' →
  is_Some (pool k) ∧ k' = sent (sql_Has (table k)) [VText n] k.
Proof.
  unfold Has, k_table, mbind, M_bind.
  destruct (k_pool _ k) as [row k1|] eqn:E; [|discriminate].
  apply (k_pool_request _ (sql_Has (table k)) [VText n]) in E
    as (p & Hp & _ & ->); [|reflexivity].
  destruct (Row_Scan scan_bool row false) as [b [[]|]];
    unfold mret, M_ret; intros [= <-]; rewrite Hp; eauto.
Qed.

Lemma Delete_sends (n : string) (k k' : PGKeystore) (e : option error) :
  Delete n k = Ret e k' →
  ∃ p, pool k = Some p ∧ k' = sent (sql_Delete (table k)) [VText n] k
       ∧ e = reported (request (sql_Delete (table k)) [VText n] p).1.
Proof.
  unfold Delete, k_table, mbind, M_bind.
  destruct (k_pool _ k) as [err k1|] eqn:E; [|discriminate].
  apply (k_pool_request _ (sql_Delete (table k)) [VText n]) in E
    as (p & Hp & Ha & ->); [|intros; apply Exec_request].
  rewrite (proj2 (Exec_request _ _ _)) in Ha.
  destruct err; unfold mret, M_ret; intros [= <- <-]; exists p; auto.
Qed.

Lemma List_sends (k k' : PGKeystore) (r : list string * option error) :
  List k = Ret r k' →
  is_Some (pool k) ∧ k' = sent (sql_List (table k)) [] k.
Proof.
  unfold List, k_table, mbind, M_bind.
  destruct (k_pool _ k) as [[rows err] k1|] eqn:E; [|discriminate].
  apply (k_pool_request _ (sql_List (table k)) []) in E
    as (p & Hp & _ & ->); [|intros; apply Query_request].
  destruct err; unfold mret, M_ret; intros [= <-]; rewrite Hp; eauto.
Qed.

Section sends.
Context {PrivKey : Type} {codec : PrivKeyCodec PrivKey}.

Lemma Get_sends (n : string) (k k' : PGKeystore)
    (r : option PrivKey * option error) :
  Get n k = Ret r k' →
  is_Some (pool k) ∧ k' = sent (sql_Get (table k)) [VText n] k.
Proof.
  unfold Get, k_table, mbind, M_bind.
  destruct (k_pool _ k) as [row k1|] eqn:E; [|discriminate].
  apply (k_pool_request _ (sql_Get (table k)) [VText n]) in E
    as (p & Hp & _ & ->); [|reflexivity].
  destruct (Row_Scan scan_bytes row []) as [b [[]|]];
    unfold mret, M_ret; intros [= <-]; rewrite Hp; eauto.
Qed.

(** The three ways through a [Put] that returns: the empty name, a
    return after the existence query, and a return after the insert. *)
Lemma Put_sends (n : string) (priv : option PrivKey) (k k' : PGKeystore)
    (e : option error) :
  Put n priv k = Ret e k' →
  (n = "" ∧ k' = k ∧ is_Some e)
  ∨ (n ≠ "" ∧ is_Some (pool k) ∧ is_Some e
     ∧ k' = sent (sql_Has (table k)) [VText n] k)
  ∨ (n ≠ ""
     ∧ ∃ p1 key b, pool (sent (sql_Has (table k)) [VText n] k) = Some p1
               ∧ priv = Some key
               ∧ MarshalPrivateKey key = (b, None)
               ∧ k' = sent (sql_Put (table k)) [VText n; VBytea b]
                        (sent (sql_Has (table k)) [VText n] k)
               ∧ e = reported (request (sql_Put (table k)) [VText n; VBytea b] p1).1).
Proof.
  rewrite Put_unfold. case_bool_decide as Hn.
  { intros [= <- <-]. left. eauto. }
  destruct (Has n k) as [[ex err] k1|] eqn:EH; [|discriminate].
  apply Has_sends in EH as (Hp & ->).
  destruct ex; [intros [= <- <-]; right; left; eauto 10|].
  destruct (match err with Some e => negb (errors_Is e ErrNoSuchKey) | None => false end)
    eqn:Herr.
  { intros [= <- <-]. right. left. destruct err; [eauto 10 | discriminate]. }
  destruct priv as [key|]; [|discriminate].
  destruct (MarshalPrivateKey key) as [b [e'|]] eqn:Hm;
    [intros [= <- <-]; right; left; eauto 10|].
  intros E.
  apply (k_pool_request _ (sql_Put (table k)) [VText n; VBytea b]) in E
    as (p1 & Hp1 & Ha & ->); [|intros; apply Exec_request].
  rewrite (proj2 (Exec_request _ _ _)) in Ha.
  right. right. split; [assumption|]. exists p1, key, b. auto 10.
Qed.
End sends.

(** ** One step of the adapter *)

Lemma sent_step (sql : string) (args : list Value) (k : PGKeystore) (st : Stmt) :
  is_Some (pool k) → parse sql = Some st → stmt_table st = table k →
  step k (sent sql args k).
Proof.
  intros [p Hp] Hst Ht. unfold sent. rewrite Hp. simpl.
  now apply (step_request k p sql args st).
Qed.

Lemma sent_requests (sql : string) (args : list Value) (k : PGKeystore) :
  is_Some (pool k) → requests (sent sql args k) = (sql, args) :: requests k.
Proof.
  intros [p Hp]. unfold requests, sent. rewrite Hp. simpl.
  apply request_effect.
Qed.

Lemma sent_reads (sql : string) (args : list Value) (k : PGKeystore) (st : Stmt) :
  parse sql = Some st →
  (∀ t, st ≠ InsertUpsert t) → (∀ t, st ≠ DeleteWhere t) →
  database (sent sql args k) = database k.
Proof.
  intros Hst Hi Hd. unfold database, sent. destruct (pool k) as [p|]; simpl;
    [|reflexivity].
  f_equal. now apply (request_reads _ _ _ st).
Qed.

(** A step keeps the table name and the other tables, and does to the
    rows of the adapter's table nothing or one upsert or one delete. *)
Lemma step_effect (k k' : PGKeystore) :
  step k k' →
  table k' = table k
  ∧ (∀ t, t ≠ table k → rows_of t k' = rows_of t k)
  ∧ (stored k' = stored k
     ∨ ∃ rows rows', stored k = Some rows ∧ rewrites rows rows'
                     ∧ stored k' = Some rows').
Proof.
  intros [k0 p sql args st Hp Hst Ht | k0 p Hp];
    (split; [reflexivity|]); unfold rows_of, stored; rewrite Hp; simpl.
  - destruct (request_rewrites sql args p st Hst)
      as [->|(rows & rows' & Hr & Hrw & ->)]; [auto|].
    rewrite Ht in *. split.
    + intros t Hne. now rewrite lookup_insert_ne.
    + right. exists rows, rows'. now rewrite lookup_insert_eq.
  - auto.
Qed.

Lemma rewrites_NoDup (rows rows' : list KeyRow) :
  rewrites rows rows' → NoDup (names rows) → NoDup (names rows').
Proof.
  intros [n d rows0 | n rows0] Hnd.
  - rewrite names_upsert. destruct (existsb (named n) rows0) eqn:E; [assumption|].
    apply NoDup_app. repeat split; [assumption | | apply NoDup_singleton].
    intros m Hm ->%list_elem_of_singleton.
    apply elem_of_names in Hm. congruence.
  - rewrite names_delete. now apply NoDup_filter.
Qed.

Lemma steps_effect (k k' : PGKeystore) :
  rtc step k k' →
  table k' = table k
  ∧ (∀ t, t ≠ table k → rows_of t k' = rows_of t k)
  ∧ (∀ rows, stored k = Some rows → NoDup (names rows) →
     ∃ rows', stored k' = Some rows' ∧ NoDup (names rows')).
Proof.
  induction 1 as [k | k k1 k2 Hstep _ (IHt & IHo & IHn)].
  - repeat split. eauto.
  - destruct (step_effect k k1 Hstep) as (Ht & Ho & Hs). rewrite Ht in *.
    split; [assumption|]. split.
    + intros t Hne. now rewrite IHo, Ho.
    + intros rows Hr Hnd.
      destruct Hs as [Hs|(rows0 & rows1 & Hr0 & Hrw & Hr1)].
      * apply (IHn rows); [congruence | assumption].
      * apply (IHn rows1); [assumption|].
        apply (rewrites_NoDup rows0); [assumption | congruence].
Qed.

Section runs.
Context {PrivKey : Type} {codec : PrivKeyCodec PrivKey}.

Lemma call_steps (c : Call) (k k' : PGKeystore) :
  call c k = Ret () k' → rtc step k k'.
Proof.
  destruct c; unfold call, mbind, M_bind.
  - unfold PgxPool, mret, M_ret. intros [= <-]. constructor.
  - unfold Close, mret, M_ret. destruct (pool k) as [p|] eqn:Hp; intros [= <-].
    + apply rtc_once. now constructor.
    + constructor.
  - destruct (Has name k) as [r k1|] eqn:E; [|discriminate].
    unfold mret, M_ret. intros [= <-]. apply Has_sends in E as [Hp ->].
    apply rtc_once. apply (sent_step _ _ _ (SelectExists (table k)));
      [assumption | apply parse_exists | reflexivity].
  - destruct (Put name priv k) as [r k1|] eqn:E; [|discriminate].
    unfold mret, M_ret. intros [= <-].
    apply Put_sends in E as [(_ & -> & _)|[(_ & Hp & _ & ->)|(_ & p1 & key & b & Hp1 & _ & _ & -> & _)]].
    + constructor.
    + apply rtc_once. apply (sent_step _ _ _ (SelectExists (table k)));
        [assumption | apply parse_exists | reflexivity].
    + assert (Hp : is_Some (pool k)).
      { unfold sent in Hp1. simpl in Hp1. destruct (pool k); [eauto | discriminate]. }
      apply rtc_l with (sent (sql_Has (table k)) [VText name] k).
      * apply (sent_step _ _ _ (SelectExists (table k)));
          [assumption | apply parse_exists | reflexivity].
      * apply rtc_once.
        apply (sent_step (sql_Put (table k)) [VText name; VBytea b]
                 (sent (sql_Has (table k)) [VText name] k)
                 (InsertUpsert (table k)));
          [eauto | apply parse_insert | reflexivity].
  - destruct (Get name k) as [r k1|] eqn:E; [|discriminate].
    unfold mret, M_ret. intros [= <-]. apply Get_sends in E as [Hp ->].
    apply rtc_once. apply (sent_step _ _ _ (SelectData (table k)));
      [assumption | apply parse_data | reflexivity].
  - destruct (Delete name k) as [r k1|] eqn:E; [|discriminate].
    unfold mret, M_ret. intros [= <-]. apply Delete_sends in E as (p & Hp & -> & _).
    apply rtc_once. apply (sent_step _ _ _ (DeleteWhere (table k)));
      [eauto | apply parse_delete | reflexivity].
  - destruct (List k) as [r k1|] eqn:E; [|discriminate].
    unfold mret, M_ret. intros [= <-]. apply List_sends in E as [Hp ->].
    apply rtc_once. apply (sent_step _ _ _ (SelectName (table k)));
      [assumption | apply parse_name | reflexivity].
Qed.

Lemma calls_steps (cs : list Call) (k k' : PGKeystore) :
  calls cs k = Ret () k' → rtc step k k'.
Proof.
  revert k. induction cs as [|c cs IH]; intros k; simpl.
  - unfold mret, M_ret. intros [= <-]. constructor.
  - unfold mbind, M_bind. destruct (call c k) as [[] k1|] eqn:E; [|discriminate].
    intros Hcs. apply rtc_trans with k1; [now apply (call_steps c) | now apply IH].
Qed.

(** X15. The adapter touches no table but its own: whatever methods
    are called on it, every other table of the database has afterwards
    the rows it had before. *)
Theorem calls_other_tables (cs : list Call) (k k' : PGKeystore) (t : string) :
  calls cs k = Ret () k' → t ≠ table k → rows_of t k' = rows_of t k.
Proof. intros Hcs%calls_steps Hne. now apply steps_effect. Qed.

(** X16. The names stay unique: when no two rows of the adapter's
    table have the same name, then whatever methods are called on the
    adapter, whatever they return, the table is still there and no two
    of its rows have the same name. *)
Theorem calls_keep_names_unique (cs : list Call) (k k' : PGKeystore)
    (rows : list KeyRow) :
  calls cs k = Ret () k' → stored k = Some rows → NoDup (names rows) →
  ∃ rows', stored k' = Some rows' ∧ NoDup (names rows').
Proof.
  intros Hcs%calls_steps Hr Hnd. now apply (steps_effect k k' Hcs) with rows.
Qed.
End runs.

(** ** What the methods leave alone *)

Section leaves.
Context {PrivKey : Type} {codec : PrivKeyCodec PrivKey}.

(** X17. [Has], [Get] and [List] only read: on every adapter, whatever
    the connection does and whatever they return, the database is
    afterwards what it was before. *)
Theorem reads_change_nothing (n : string) (k k' : PGKeystore) :
  (∀ r, Has n k = Ret r k' → database k' = database k)
  ∧ (∀ r, Get n k = Ret r k' → database k' = database k)
  ∧ (∀ r, List k = Ret r k' → database k' = database k).
Proof.
  repeat split; intros r.
  - intros [_ ->]%Has_sends.
    now apply (sent_reads _ _ _ (SelectExists (table k)) (parse_exists _)).
  - intros [_ ->]%Get_sends.
    now apply (sent_reads _ _ _ (SelectData (table k)) (parse_data _)).
  - intros [_ ->]%List_sends.
    now apply (sent_reads _ _ _ (SelectName (table k)) (parse_name _)).
Qed.

Lemma sent_failed (sql : string) (args : list Value) (k : PGKeystore)
    (p : Pool) (e : error) :
  pool k = Some p → (request sql args p).1 = Failed e →
  database (sent sql args k) = database k.
Proof.
  intros Hp Hf. unfold database, sent. rewrite Hp. simpl. f_equal.
  now apply (request_failed _ _ _ e).
Qed.

(** On a connection that cuts no reply, a request comes back with an
    error only when it failed. *)
Lemma request_unbroken (sql : string) (args : list Value) (p : Pool) (e : error) :
  forallb (λ f, match f with Some (Broken _ _) => false | _ => true end) (faults p)
  = true →
  reported (request sql args p).1 = Some e →
  (request sql args p).1 = Failed e.
Proof.
  unfold request. destruct (closed p); [now intros _ [= ->]|].
  destruct (faults p) as [|[[e'|n e']|] rest]; simpl; try discriminate;
    try (now intros _ [= ->]);
    (destruct (parse sql) as [st|]; [|now intros _ [= ->]]);
    destruct (eval_tables st args (tables p)) as [Hu|(? & ? & _ & _ & Hr & _)];
    destruct (eval st args (tables p)) as [[e''|recs err] db] eqn:E; simpl in *;
    intros _; try (now intros [= ->]);
    destruct st as [t|t|t|t|t], args as [|[] [|[] [|]]]; simpl in E;
    try destruct (tables p !! t); simplify_eq; discriminate.
Qed.

Lemma sent_unbroken (sql : string) (args : list Value) (k : PGKeystore) :
  unbroken k = true → unbroken (sent sql args k) = true.
Proof.
  unfold unbroken, sent. destruct (pool k) as [p|]; simpl; [|reflexivity].
  unfold request. destruct (closed p); [easy|].
  destruct (faults p) as [|[[e|n e]|] rest]; simpl; try easy;
    destruct (parse sql) as [st|]; simpl; try easy;
    destruct (eval st args (tables p)); simpl; easy.
Qed.

(** X18. No partial writes, unless a reply is lost: on a connection that
    cuts no reply after the server ran the statement, a [Put] or a
    [Delete] that returns an error, on whatever adapter, has left the
    database as it was. *)
Theorem errors_change_nothing (n : string) (priv : option PrivKey)
    (k k' : PGKeystore) (e : error) :
  unbroken k = true →
  (Put n priv k = Ret (Some e) k' → database k' = database k)
  ∧ (Delete n k = Ret (Some e) k' → database k' = database k).
Proof.
  intros Hu. split.
  - intros [(_ & -> & _)|[(_ & _ & _ & ->)
                         |(_ & p1 & key & b & Hp1 & _ & _ & -> & He)]]%Put_sends.
    + reflexivity.
    + now apply (sent_reads _ _ _ (SelectExists (table k)) (parse_exists _)).
    + pose proof (sent_unbroken (sql_Has (table k)) [VText n] k Hu) as Hu1.
      unfold unbroken in Hu1. rewrite Hp1 in Hu1.
      symmetry in He. apply (request_unbroken _ _ _ _ Hu1) in He.
      rewrite (sent_failed _ _ _ p1 e Hp1 He).
      now apply (sent_reads _ _ _ (SelectExists (table k)) (parse_exists _)).
  - intros (p & Hp & -> & He)%Delete_sends.
    unfold unbroken in Hu. rewrite Hp in Hu.
    symmetry in He. apply (request_unbroken _ _ _ _ Hu) in He.
    now apply (sent_failed _ _ _ p e).
Qed.

(** X19. The requests of each method: [Has], [Get], [Delete] and [List]
    send exactly one request each; [Put] sends at most two, none for
    the empty name, and exactly two when it returns nil. *)
Theorem requests_sent (n : string) (priv : option PrivKey) (k k' : PGKeystore) :
  (∀ r, Has n k = Ret r k' →
        requests k' = (sql_Has (table k), [VText n]) :: requests k)
  ∧ (∀ r, Get n k = Ret r k' →
          requests k' = (sql_Get (table k), [VText n]) :: requests k)
  ∧ (∀ r, Delete n k = Ret r k' →
          requests k' = (sql_Delete (table k), [VText n]) :: requests k)
  ∧ (∀ r, List k = Ret r k' →
          requests k' = (sql_List (table k), []) :: requests k)
  ∧ (∀ e, Put n priv k = Ret e k' →
          (length (requests k') ≤ 2 + length (requests k))%nat
          ∧ (n = "" → requests k' = requests k)
          ∧ (e = None → length (requests k') = 2 + length (requests k))).
Proof.
  split; [|split; [|split; [|split]]].
  - intros r [Hp ->]%Has_sends. now apply sent_requests.
  - intros r [Hp ->]%Get_sends. now apply sent_requests.
  - intros r (p & Hp & -> & _)%Delete_sends. apply sent_requests. eauto.
  - intros r [Hp ->]%List_sends. now apply sent_requests.
  - intros e [(Hn & -> & He)|[(Hn & Hp & He & ->)|(Hn & p1 & key & b & Hp1 & _ & _ & -> & _)]]%Put_sends.
    + split; [lia|]. split; [reflexivity|]. intros ->. now destruct He.
    + rewrite sent_requests by assumption. simpl.
      split; [lia|]. split; [contradiction|]. intros ->. now destruct He.
    + assert (Hp : is_Some (pool k)).
      { unfold sent in Hp1. simpl in Hp1. destruct (pool k); [eauto | discriminate]. }
      rewrite sent_requests by eauto. rewrite sent_requests by assumption.
      simpl. split; [lia|]. split; [contradiction | reflexivity].
Qed.
End leaves.

(** ** Running without a panic *)

Lemma k_pool_runs {A} (f : Pool → A * Pool) (k : PGKeystore) :
  is_Some (pool k) →
  ∃ a k', k_pool f k = Ret a k' ∧ is_Some (pool k').
Proof.
  intros [p Hp]. unfold k_pool. rewrite Hp. destruct (f p) as [a p'].
  eexists _, _. split; [reflexivity|]. simpl. eauto.
Qed.

Lemma Has_runs (n : string) (k : PGKeystore) :
  is_Some (pool k) → ∃ r k', Has n k = Ret r k' ∧ is_Some (pool k').
Proof.
  intros Hp. unfold Has, k_table, mbind, M_bind.
  destruct (k_pool_runs (QueryRow (sql_Has (table k)) [VText n]) k Hp)
    as (row & k' & E & Hp'). unfold sql_Has in E. rewrite E.
  destruct (Row_Scan scan_bool row false) as [b [[]|]]; unfold mret, M_ret; eauto.
Qed.

Lemma Delete_runs (n : string) (k : PGKeystore) :
  is_Some (pool k) → ∃ r k', Delete n k = Ret r k' ∧ is_Some (pool k').
Proof.
  intros Hp. unfold Delete, k_table, mbind, M_bind.
  destruct (k_pool_runs (Exec (sql_Delete (table k)) [VText n]) k Hp)
    as (err & k' & E & Hp'). unfold sql_Delete in E. rewrite E.
  destruct err; unfold mret, M_ret; eauto.
Qed.

Lemma List_runs (k : PGKeystore) :
  is_Some (pool k) → ∃ r k', List k = Ret r k' ∧ is_Some (pool k').
Proof.
  intros Hp. unfold List, k_table, mbind, M_bind.
  destruct (k_pool_runs (Query (sql_List (table k)) []) k Hp)
    as ([rows err] & k' & E & Hp'). unfold sql_List in E. rewrite E.
  destruct err; unfold mret, M_ret; eauto.
Qed.

Section safety.
Context {PrivKey : Type} {codec : PrivKeyCodec PrivKey}.

Lemma Get_runs (n : string) (k : PGKeystore) :
  is_Some (pool k) → ∃ r k', Get n k = Ret r k' ∧ is_Some (pool k').
Proof.
  intros Hp. unfold Get, k_table, mbind, M_bind.
  destruct (k_pool_runs (QueryRow (sql_Get (table k)) [VText n]) k Hp)
    as (row & k' & E & Hp'). unfold sql_Get in E. rewrite E.
  destruct (Row_Scan scan_bytes row []) as [b [[]|]]; unfold mret, M_ret; eauto.
Qed.

Lemma Put_runs (n : string) (priv : PrivKey) (k : PGKeystore) :
  is_Some (pool k) → ∃ r k', Put n (Some priv) k = Ret r k' ∧ is_Some (pool k').
Proof.
  intros Hp. rewrite Put_unfold. case_bool_decide; [eauto|].
  destruct (Has_runs n k Hp) as ([ex err] & k1 & -> & Hp1).
  destruct ex; [eauto|].
  destruct (match err with Some e => negb (errors_Is e ErrNoSuchKey) | None => false end);
    [eauto|].
  destruct (MarshalPrivateKey priv) as [b [e|]]; [eauto|].
  now apply k_pool_runs.
Qed.

Lemma call_runs (c : Call) (k : PGKeystore) :
  has_key c = true → is_Some (pool k) →
  ∃ k', call c k = Ret () k' ∧ is_Some (pool k').
Proof.
  intros Hkey Hp. destruct c; unfold call, mbind, M_bind.
  - unfold PgxPool, mret, M_ret. eauto.
  - unfold Close, mret, M_ret. destruct Hp as [p ->]. simpl. eauto.
  - destruct (Has_runs name k Hp) as (r & k' & -> & Hp'). unfold mret, M_ret. eauto.
  - destruct priv as [key|]; [|discriminate].
    destruct (Put_runs name key k Hp) as (r & k' & -> & Hp'). unfold mret, M_ret. eauto.
  - destruct (Get_runs name k Hp) as (r & k' & -> & Hp'). unfold mret, M_ret. eauto.
  - destruct (Delete_runs name k Hp) as (r & k' & -> & Hp'). unfold mret, M_ret. eauto.
  - destruct (List_runs k Hp) as (r & k' & -> & Hp'). unfold mret, M_ret. eauto.
Qed.

(** X20. On an adapter whose pool is not nil, calls that pass no nil key
    to [Put] and do not close a closed pool again do not panic, in
    whatever order the methods are called and whatever the connection
    does, also after the [Close]; and the pool is never set to nil.
    (What a second [Close] does is pgxpool's affair and depends on its
    version.) *)
Theorem calls_never_panic (cs : list Call) (k : PGKeystore) :
  forallb has_key cs = true → (closed_before k + closes cs ≤ 1)%nat →
  is_Some (pool k) →
  ∃ k', calls cs k = Ret () k' ∧ is_Some (pool k').
Proof.
  intros Hkeys _. revert k. induction cs as [|c cs IH]; intros k Hp; simpl in *.
  - unfold mret, M_ret. eauto.
  - apply andb_true_iff in Hkeys as [Hkey Hkeys]. unfold mbind, M_bind.
    destruct (call_runs c k Hkey Hp) as (k1 & -> & Hp1). now apply IH.
Qed.

(** A nil key passed to [Put] under a free name is the panic that the
    condition of X20 keeps out. *)
Lemma Put_nil_key_panics (n : string) (k : PGKeystore) (rows : list KeyRow) :
  n ≠ "" → serving k = true → stored k = Some rows → n ∉ names rows →
  Put n None k = Panic.
Proof.
  intros Hn Hs Hr Hfresh.
  pose proof (Put_nil_key_serving n k rows Hn Hs Hr) as Hnil.
  destruct (existsb (named n) rows) eqn:Hex; [|assumption].
  now apply elem_of_names in Hex.
Qed.

Lemma call_serving (c : Call) (k : PGKeystore) :
  keeps_open c = true → has_key c = true → serving k = true →
  ∃ k', call c k = Ret () k' ∧ serving k' = true.
Proof.
  intros Hc Hkey Hs. destruct (serving_stored k Hs) as [rows Hr].
  destruct c; try discriminate; unfold call, mbind, M_bind.
  - unfold PgxPool, mret, M_ret. eauto.
  - destruct (Has_serving name k rows Hs Hr) as (k' & -> & Hs' & _).
    unfold mret, M_ret. eauto.
  - destruct priv as [key|]; [|discriminate].
    destruct (decide (name = "")) as [->|Hn]; [unfold mret, M_ret; simpl; eauto|].
    destruct (Put_serving name key k rows Hn Hs Hr) as (k' & -> & Hs' & _).
    unfold mret, M_ret. eauto.
  - destruct (Get_serving name k rows Hs Hr) as (k' & -> & Hs' & _).
    unfold mret, M_ret. eauto.
  - destruct (Delete_serving name k rows Hs Hr) as (k' & -> & Hs' & _).
    unfold mret, M_ret. eauto.
  - destruct (List_serving k rows Hs Hr) as (k' & -> & Hs' & _).
    unfold mret, M_ret. eauto.
Qed.

(** X21. An adapter in working order stays in working order: after
    whatever calls of [PgxPool], [Has], [Put] with a key that is not
    nil, [Get], [Delete] and [List], whatever they return, no call has
    panicked, the pool is open and the table is there.  Only [Close]
    ends it. *)
Theorem calls_keep_serving (cs : list Call) (k : PGKeystore) :
  forallb keeps_open cs = true → forallb has_key cs = true →
  serving k = true →
  ∃ k', calls cs k = Ret () k' ∧ serving k' = true.
Proof.
  revert k. induction cs as [|c cs IH]; intros k Hcs Hkeys Hs; simpl in *.
  - unfold mret, M_ret. eauto.
  - apply andb_true_iff in Hcs as [Hc Hcs].
    apply andb_true_iff in Hkeys as [Hkey Hkeys]. unfold mbind, M_bind.
    destruct (call_serving c k Hc Hkey Hs) as (k1 & -> & Hs1). now apply IH.
Qed.
End safety.

(** ** [Put] when the existence query fails *)

Lemma request_fault (sql : string) (args : list Value) (p : Pool) (e : error)
    (rest : list (option Fault)) :
  closed p = false → faults p = Some (Refused e) :: rest →
  request sql args p
  = (Failed e, {| tables := tables p; closed := false; faults := rest;
                  issued := (sql, args) :: issued p |}).
Proof. intros Hc Hf. unfold request. now rewrite Hc, Hf. Qed.

Lemma request_broken (sql : string) (args : list Value) (p : Pool) (st : Stmt)
    (n : nat) (e : error) (rest : list (option Fault)) :
  closed p = false → faults p = Some (Broken n e) :: rest →
  parse sql = Some st →
  request sql args p
  = (arrives (Some (Broken n e)) (eval st args (tables p)).1,
     {| tables := (eval st args (tables p)).2; closed := false; faults := rest;
        issued := (sql, args) :: issued p |}).
Proof.
  intros Hc Hf Hp. unfold request. rewrite Hc, Hf, Hp.
  now destruct (eval st args (tables p)) as [r db].
Qed.

Section unchecked.
Context {PrivKey : Type} {codec : PrivKeyCodec PrivKey}.

(** X22. [Put] takes "no rows" from the existence query for "the name is
    free": when the driver answers that query with [ErrNoRows], [Put]
    under a non-empty name goes on to the insert, which is an upsert,
    and returns nil; a row that had the name now holds the new key, so
    that [Get] returns a key equal to the one just put. *)
Theorem Put_on_no_rows {round_trip : CodecRoundTrip PrivKey}
    (n : string) (priv : PrivKey) (b : bytes) (k : PGKeystore) (p : Pool)
    (rows : list KeyRow) :
  pool k = Some p → closed p = false → faults p = [Some (Refused ErrNoRows)] →
  tables p !! table k = Some rows →
  n ≠ "" → MarshalPrivateKey priv = (b, None) →
  ∃ k1, Put n (Some priv) k = Ret None k1
        ∧ stored k1 = Some (upsert n b rows)
        ∧ ∃ out k2, Get n k1 = Ret (Some out, None) k2
                    ∧ Equals out priv = true.
Proof.
  intros Hp Hc Hf Hr Hn Hm.
  assert (HP : ∃ k1, Put n (Some priv) k = Ret None k1
                     ∧ stored k1 = Some (upsert n b rows)
                     ∧ serving k1 = true).
  { rewrite Put_unfold. rewrite bool_decide_eq_false_2 by assumption.
    unfold Has, k_table, k_pool, QueryRow, Exec, mbind, M_bind. rewrite Hp.
    rewrite (request_fault _ _ _ _ _ Hc Hf). cbn -[Sprintf sql_Put request].
    unfold errors_Is. rewrite bool_decide_eq_true_2 by reflexivity.
    cbn -[Sprintf request sql_Put]. rewrite Hm. unfold sql_Put.
    cbn -[Sprintf request].
    rewrite (request_through _ _ _ (InsertUpsert (table k)));
      [| reflexivity | reflexivity | apply parse_insert].
    cbn -[Sprintf]. rewrite Hr. cbn -[Sprintf].
    eexists. split; [reflexivity|].
    unfold stored, serving. simpl. rewrite lookup_insert_eq. split; reflexivity. }
  destruct HP as (k1 & HP & Hr1 & Hs1). exists k1.
  repeat split; try assumption. now apply (Get_upserted n priv b rows).
Qed.

(** X23. A failure of the existence query before any record of its
    reply is read ends [Put]: when the connection refuses that query
    with an error other than [ErrNoRows] and [ErrNoSuchKey], [Put]
    under a non-empty name, with whatever key, returns that error, has
    sent nothing but the query, and the database is as it was. *)
Theorem Put_on_failed_check (n : string) (priv : option PrivKey) (k : PGKeystore)
    (p : Pool) (e : error) (rest : list (option Fault)) :
  pool k = Some p → closed p = false → faults p = Some (Refused e) :: rest →
  n ≠ "" → e ≠ ErrNoRows → e ≠ ErrNoSuchKey →
  ∃ k1, Put n priv k = Ret (Some e) k1
        ∧ requests k1 = (sql_Has (table k), [VText n]) :: requests k
        ∧ database k1 = database k.
Proof.
  intros Hp Hc Hf Hn He1 He2.
  rewrite Put_unfold. rewrite bool_decide_eq_false_2 by assumption.
  unfold Has, k_table, k_pool, QueryRow, mbind, M_bind. rewrite Hp.
  rewrite (request_fault _ _ _ _ _ Hc Hf). cbn -[Sprintf sql_Put].
  assert (Hneg : negb (errors_Is e ErrNoSuchKey) = true).
  { unfold errors_Is. now rewrite bool_decide_eq_false_2. }
  destruct e; try contradiction; cbn -[Sprintf sql_Put]; try rewrite Hneg;
    (eexists; split; [reflexivity|]);
    unfold requests, database; rewrite Hp; split; reflexivity.
Qed.

(** X25. A failure that comes after the record of the existence query
    was read does not reach the caller of [Put]: when the name is taken
    and the connection breaks while that reply is closed, [Has] returns
    true together with an error, and [Put] under that name, with
    whatever key, returns [ErrKeyExists]; it has sent nothing but the
    query and the database is as it was. *)
Theorem Put_on_broken_check (n : string) (priv : option PrivKey) (k : PGKeystore)
    (p : Pool) (m : nat) (e : error) (rest : list (option Fault))
    (rows : list KeyRow) :
  pool k = Some p → closed p = false → faults p = Some (Broken (S m) e) :: rest →
  tables p !! table k = Some rows →
  n ≠ "" → n ∈ names rows →
  (∃ e' k1, Has n k = Ret (true, Some e') k1)
  ∧ ∃ k1, Put n priv k = Ret (Some ErrKeyExists) k1
          ∧ requests k1 = (sql_Has (table k), [VText n]) :: requests k
          ∧ database k1 = database k.
Proof.
  intros Hp Hc Hf Hr Hn Hin%elem_of_names.
  assert (HH : ∃ e', Has n k
                     = Ret (true, Some e')
                         {| table := table k;
                            pool := Some {| tables := tables p; closed := false;
                                            faults := rest;
                                            issued := (sql_Has (table k), [VText n])
                                                      :: issued p |} |}).
  { unfold Has, k_table, k_pool, QueryRow, mbind, M_bind. rewrite Hp.
    rewrite (request_broken _ _ _ (SelectExists (table k)) _ _ _ Hc Hf (parse_exists _)).
    cbn -[Sprintf]. rewrite Hr. cbn -[Sprintf]. rewrite Hin.
    destruct e; cbn -[Sprintf]; eexists; reflexivity. }
  destruct HH as [e' HH]. split; [eauto|].
  rewrite Put_unfold. rewrite bool_decide_eq_false_2 by assumption. rewrite HH.
  eexists. split; [reflexivity|].
  unfold requests, database. rewrite Hp. split; reflexivity.
Qed.
End unchecked.

(** X26. [List] never looks at [rows.Err()]: when the connection breaks
    while the reply to its query is read, after [n] records, [List]
    returns the names it has read from those records, with no error. *)
Theorem List_on_broken_rows (k : PGKeystore) (p : Pool) (n : nat) (e : error)
    (rest : list (option Fault)) (rows : list KeyRow) :
  pool k = Some p → closed p = false → faults p = Some (Broken n e) :: rest →
  tables p !! table k = Some rows →
  ∃ k', List k = Ret (listed (take n rows), None) k'
        ∧ database k' = database k.
Proof.
  intros Hp Hc Hf Hr.
  unfold List, k_table, k_pool, Query, mbind, M_bind. rewrite Hp.
  rewrite (request_broken _ _ _ (SelectName (table k)) _ _ _ Hc Hf (parse_name _)).
  cbn -[Sprintf]. rewrite Hr. cbn -[Sprintf take].
  rewrite <- fmap_take, List_loop_listed. cbn -[Sprintf take].
  eexists. split; [reflexivity|]. unfold database. now rewrite Hp.
Qed.

(** X27. What [List] returns: on an adapter in working order, with no
    error, the names of the rows in the order of the table, up to the
    first row whose name does not scan into a string; so all the names
    when every row has one, and the empty list for the empty table.
    The rows are left as they were. *)
Theorem List_reaches (k : PGKeystore) (rows : list KeyRow) :
  serving k = true → stored k = Some rows →
  ∃ l k', List k = Ret (l, None) k'
          ∧ stored k' = Some rows
          ∧ l = listed rows
          ∧ (all_named rows = true → l = names rows)
          ∧ (rows = [] → l = []).
Proof.
  intros Hs Hr.
  destruct (List_serving k rows Hs Hr) as (k' & HL & _ & Hr' & _).
  exists (listed rows), k'. repeat split; try assumption.
  - apply listed_all_named.
  - now intros ->.
Qed.

(** ** Writes whose reply is lost *)

Lemma request_passed (sql : string) (args : list Value) (p : Pool) (st : Stmt)
    (rest : list (option Fault)) :
  closed p = false → faults p = None :: rest → parse sql = Some st →
  request sql args p
  = ((eval st args (tables p)).1,
     {| tables := (eval st args (tables p)).2; closed := false; faults := rest;
        issued := (sql, args) :: issued p |}).
Proof.
  intros Hc Hf Hp. unfold request. rewrite Hc, Hf, Hp.
  now destruct (eval st args (tables p)) as [[] db].
Qed.

Section lost.
Context {PrivKey : Type} {codec : PrivKeyCodec PrivKey}.

(** X28. An error from [Delete] or [Put] does not say that nothing was
    written.  When the connection breaks after the server ran the
    statement, while its reply is on the way back, [Delete n] returns
    the error and the rows named [n] are gone; and [Put] under a free
    name returns the error and the key is stored: a [Put] tried again
    (on a connection in working order) returns [ErrKeyExists]. *)
Theorem writes_on_lost_reply (n : string) (priv : PrivKey) (b : bytes)
    (k : PGKeystore) (p : Pool) (m : nat) (e : error) (rows : list KeyRow) :
  pool k = Some p → closed p = false → tables p !! table k = Some rows →
  (faults p = [Some (Broken m e)] →
   ∃ k1, Delete n k = Ret (Some e) k1
         ∧ stored k1 = Some (filter (λ r, ¬ named n r) rows))
  ∧ (faults p = [None; Some (Broken m e)] →
     n ≠ "" → n ∉ names rows → MarshalPrivateKey priv = (b, None) →
     ∃ k1, Put n (Some priv) k = Ret (Some e) k1
           ∧ stored k1 = Some (upsert n b rows)
           ∧ ∃ k2, Put n (Some priv) k1 = Ret (Some ErrKeyExists) k2).
Proof.
  intros Hp Hc Hr. split.
  - intros Hf. unfold Delete, k_table, k_pool, Exec, mbind, M_bind. rewrite Hp.
    rewrite (request_broken _ _ _ (DeleteWhere (table k)) _ _ _ Hc Hf (parse_delete _)).
    cbn -[Sprintf]. rewrite Hr. cbn -[Sprintf].
    eexists. split; [reflexivity|].
    unfold stored. simpl. now rewrite lookup_insert_eq.
  - intros Hf Hn Hfresh Hm.
    assert (Hex : existsb (named n) rows = false).
    { destruct (existsb (named n) rows) eqn:Hex; [|reflexivity].
      now apply elem_of_names in Hex. }
    assert (HP : ∃ k1, Put n (Some priv) k = Ret (Some e) k1
                       ∧ stored k1 = Some (upsert n b rows)
                       ∧ serving k1 = true).
    { rewrite Put_unfold. rewrite bool_decide_eq_false_2 by assumption.
      unfold Has, k_table, k_pool, QueryRow, Exec, mbind, M_bind. rewrite Hp.
      rewrite (request_passed _ _ _ (SelectExists (table k)) _ Hc Hf (parse_exists _)).
      cbn -[Sprintf sql_Put request]. rewrite Hr.
      cbn -[Sprintf sql_Put request]. rewrite Hex.
      cbn -[Sprintf request sql_Put]. rewrite Hm. unfold sql_Put.
      cbn -[Sprintf request].
      rewrite (request_broken _ _ _ (InsertUpsert (table k)) m e []);
        [| reflexivity | reflexivity | apply parse_insert].
      cbn -[Sprintf]. rewrite Hr. cbn -[Sprintf].
      eexists. split; [reflexivity|].
      unfold stored, serving. simpl. rewrite lookup_insert_eq. split; reflexivity. }
    destruct HP as (k1 & HP & Hr1 & Hs1). exists k1.
    split; [assumption|]. split; [assumption|].
    destruct (Put_taken_serving n (Some priv) k1 _ Hn Hs1 Hr1 (existsb_upsert _ _ _))
      as (k2 & HP2 & _). eauto.
Qed.
End lost.

(** ** The package's test, for every codec and every four keys *)

Lemma bind_Ret {A B} (m : M A) (f : A → M B) (k k' : PGKeystore) (a : A) :
  m k = Ret a k' → (m ≫= f) k = f a k'.
Proof. intros Hm. unfold mbind, M_bind. now rewrite Hm. Qed.

(** Walking through the checks of a test that hold. *)
Ltac pass_checks :=
  repeat first
    [ progress cbn [fatal_if_err]
    | lazymatch goal with
      | |- ∃ _, fatal_unless ?b _ _ _ = _ =>
          replace b with true by (symmetry; vm_compute; reflexivity);
          cbn [fatal_unless]
      end ].

Ltac ran H := rewrite (bind_Ret _ _ _ _ _ H); clear H; pass_checks.

Ltac evaluate_in t H :=
  let v := eval vm_compute in t in change t with v in H.

Section green.
Context {PrivKey : Type} {codec : PrivKeyCodec PrivKey}.
Context {round_trip : CodecRoundTrip PrivKey}.

Lemma assertGetKey_serving (n : string) (exp : PrivKey) (b : bytes)
    (k : PGKeystore) (rows : list KeyRow) :
  serving k = true → stored k = Some rows →
  MarshalPrivateKey exp = (b, None) →
  head (filter (λ r, named n r) rows) ≫= row_data = Some b →
  ∃ k', assertGetKey n exp k = Ret None k'
        ∧ serving k' = true ∧ stored k' = Some rows.
Proof.
  intros Hs Hr Hm Hb.
  destruct (Get_serving n k rows Hs Hr) as (k' & HG & Hs' & Hr' & _).
  unfold assertGetKey. rewrite (bind_Ret _ _ _ _ _ HG). unfold Get_answer.
  destruct (filter (λ r, named n r) rows) as [|r rest]; [discriminate|].
  simpl in Hb. rewrite Hb. simpl.
  destruct (unmarshal_marshal exp b Hm) as (out & -> & He).
  rewrite He. simpl. unfold mret, M_ret. eauto.
Qed.

Ltac put n priv Hm k Hs Hr kn HsN HrN :=
  let HP := fresh "HP" in
  let Hn := fresh "Hn" in
  assert (Hn : n ≠ "") by discriminate;
  destruct (Put_serving n priv k _ Hn Hs Hr) as (kn & HP & HsN & HrN & _);
  unfold Put_answer in HP, HrN;
  match type of HP with
  | context [existsb ?f ?l] =>
      let b := eval vm_compute in (existsb f l) in
      change (existsb f l) with b in HP, HrN
  end;
  cbn iota in HP, HrN; try rewrite Hm in HP, HrN;
  cbn [fst snd upsert] in HP, HrN;
  ran HP; clear Hn.

Ltac has n k Hs Hr kn HsN HrN :=
  let HH := fresh "HH" in
  destruct (Has_serving n k _ Hs Hr) as (kn & HH & HsN & HrN & _);
  match type of HH with
  | context [existsb ?f ?l] => evaluate_in (existsb f l) HH
  end;
  ran HH.

Ltac get n exp Hm k Hs Hr kn HsN HrN :=
  let HA := fresh "HA" in
  destruct (assertGetKey_serving n exp _ k _ Hs Hr Hm) as (kn & HA & HsN & HrN);
  [vm_compute; reflexivity|];
  ran HA.

(** X24. The package's test is green on the model for every codec that
    round-trips and every four keys it marshals: run on an adapter in
    working order whose table is empty, [TestKeystoreBasics] reaches
    its end without a [t.Fatal]. *)
Theorem TestKeystoreBasics_green (k1 k2 k3 k4 : PrivKey) (b1 b2 b3 b4 : bytes)
    (k : PGKeystore) :
  serving k = true → stored k = Some [] →
  MarshalPrivateKey k1 = (b1, None) → MarshalPrivateKey k2 = (b2, None) →
  MarshalPrivateKey k3 = (b3, None) → MarshalPrivateKey k4 = (b4, None) →
  ∃ k', TestKeystoreBasics k1 k2 k3 k4 k = Ret None k'.
Proof.
  intros Hs Hr Hm1 Hm2 Hm3 Hm4. unfold TestKeystoreBasics.
  destruct (List_serving k _ Hs Hr) as (ka & HL & Hsa & Hra & _).
  cbn [omap list_omap] in HL. ran HL.
  put "foo" k1 Hm1 ka Hsa Hra kb Hsb Hrb.
  put "bar" k2 Hm2 kb Hsb Hrb kc Hsc Hrc.
  destruct (List_serving kc _ Hsc Hrc) as (kd & HL & Hsd & Hrd & _).
  cbn [omap list_omap row_name] in HL. ran HL.
  put "foo" k3 Hm3 kd Hsd Hrd ke Hse Hre.
  has "foo" ke Hse Hre kf Hsf Hrf.
  has "nonexistingkey" kf Hsf Hrf kg Hsg Hrg.
  destruct (Delete_serving "bar" kg _ Hsg Hrg) as (kh & HD & Hsh & Hrh & _).
  match type of Hrh with
  | context [filter ?P ?l] => evaluate_in (filter P l) Hrh
  end.
  ran HD.
  put "beep" k3 Hm3 kh Hsh Hrh ki Hsi Hri.
  put "boop" k4 Hm4 ki Hsi Hri kj Hsj Hrj.
  get "foo" k1 Hm1 kj Hsj Hrj kl Hsl Hrl.
  get "beep" k3 Hm3 kl Hsl Hrl km Hsm Hrm.
  get "boop" k4 Hm4 km Hsm Hrm kn Hsn Hrn.
  put "..///foo/" k1 Hm1 kn Hsn Hrn ko Hso Hro.
  assert (HP : Put "" (Some k1) ko
               = Ret (Some (Errorf "key name must be at least one character")) ko)
    by reflexivity.
  ran HP.
  put ".foo" k1 Hm1 ko Hso Hro kp Hsp Hrp.
  unfold mret, M_ret. eauto.
Qed.
End green.

(** * The further properties at work on the sample deployment *)

Lemma Put_other_names_sample :
  serving sample = true
  ∧ Put (codec := raw_keys) "foo" (Some [x01]) sample = Ret None sample_foo
  ∧ serving sample_foo = true
  ∧ result (Has "bar" sample_foo) = result (Has "bar" sample)
  ∧ result (Get (codec := raw_keys) "bar" sample_foo)
    = result (Get (codec := raw_keys) "bar" sample).
Proof.
  split; [vm_compute; reflexivity|]. split; [vm_compute; reflexivity|].
  apply (Put_other_names (codec := raw_keys) "foo" "bar" (Some [x01])
           sample sample_foo None);
    [vm_compute; reflexivity | vm_compute; reflexivity | discriminate].
Defined.

Lemma Delete_other_names_sample :
  serving sample_foo = true
  ∧ serving (left_by (Delete "bar" sample_foo) sample_foo) = true
  ∧ result (Has "foo" (left_by (Delete "bar" sample_foo) sample_foo))
    = result (Has "foo" sample_foo)
  ∧ result (Get (codec := raw_keys) "foo" (left_by (Delete "bar" sample_foo) sample_foo))
    = result (Get (codec := raw_keys) "foo" sample_foo).
Proof.
  split; [vm_compute; reflexivity|].
  apply (Delete_other_names (codec := raw_keys) "bar" "foo" sample_foo
           (left_by (Delete "bar" sample_foo) sample_foo) None);
    [vm_compute; reflexivity | vm_compute; reflexivity | discriminate].
Defined.

Lemma Delete_twice_sample :
  serving sample = true
  ∧ ∃ k1 k2, Delete "bar" sample = Ret None k1
             ∧ Delete "bar" k1 = Ret None k2
             ∧ stored k2 = stored k1.
Proof.
  split; [vm_compute; reflexivity|].
  apply (Delete_twice "bar" sample). vm_compute; reflexivity.
Defined.

Lemma Put_after_Delete_sample :
  serving sample = true
  ∧ ∃ k1 k2, Delete "bar" sample = Ret None k1
             ∧ Put (codec := raw_keys) "bar" (Some [x07]) k1 = Ret None k2
             ∧ ∃ out k3, Get (codec := raw_keys) "bar" k2 = Ret (Some out, None) k3
                         ∧ Equals (PrivKeyCodec := raw_keys) out [x07] = true.
Proof.
  split; [vm_compute; reflexivity|].
  apply (Put_after_Delete (round_trip := raw_keys_round_trip)
           "bar" [x07] [x08; x07] sample);
    [vm_compute; reflexivity | discriminate | vm_compute; reflexivity].
Defined.

Lemma Put_new_name_sample :
  ∃ k1, Put (codec := raw_keys) "foo" (Some [x01]) sample = Ret None k1
        ∧ serving k1 = true
        ∧ stored k1
          = Some [ {| row_name := Some "bar"; row_data := Some [x08; x02] |};
                   {| row_name := None; row_data := Some [x08; x03] |};
                   {| row_name := Some "foo"; row_data := Some [x08; x01] |} ].
Proof.
  apply (Put_new_name (codec := raw_keys) "foo" [x01] [x08; x01] sample
           [ {| row_name := Some "bar"; row_data := Some [x08; x02] |};
             {| row_name := None; row_data := Some [x08; x03] |} ]);
    [vm_compute; reflexivity | vm_compute; reflexivity | discriminate
    | apply (bool_decide_unpack _); vm_compute; exact I
    | vm_compute; reflexivity].
Defined.

Lemma Put_taken_name_sample :
  ∃ k1, Put (codec := raw_keys) "bar" None sample = Ret (Some ErrKeyExists) k1
        ∧ serving k1 = true
        ∧ stored k1 = stored sample.
Proof.
  apply (Put_taken_name (codec := raw_keys) "bar" None sample
           [ {| row_name := Some "bar"; row_data := Some [x08; x02] |};
             {| row_name := None; row_data := Some [x08; x03] |} ]);
    [vm_compute; reflexivity | vm_compute; reflexivity | discriminate
    | apply (bool_decide_unpack _); vm_compute; exact I].
Defined.

Lemma Put_unmarshalable_sample :
  ∃ k1, Put (codec := raw_keys) "foo" (Some []) sample
        = Ret (Some (Errorf "empty key")) k1
        ∧ serving k1 = true
        ∧ stored k1 = stored sample.
Proof.
  apply (Put_unmarshalable (codec := raw_keys) "foo" [] [] (Errorf "empty key") sample
           [ {| row_name := Some "bar"; row_data := Some [x08; x02] |};
             {| row_name := None; row_data := Some [x08; x03] |} ]);
    [vm_compute; reflexivity | vm_compute; reflexivity | discriminate
    | apply (bool_decide_unpack _); vm_compute; exact I
    | vm_compute; reflexivity].
Defined.

Lemma Has_Get_agree_sample :
  serving sample = true
  ∧ ((result (Has "bar" sample) = Some (false, None)
      ∧ result (Get (codec := raw_keys) "bar" sample) = Some (None, Some ErrNoSuchKey))
     ∨ (result (Has "bar" sample) = Some (true, None)
        ∧ ∃ r rows, stored sample = Some rows ∧ r ∈ rows ∧ row_name r = Some "bar"
                    ∧ result (Get (codec := raw_keys) "bar" sample)
                      = Some (UnmarshalPrivateKey (PrivKeyCodec := raw_keys)
                                (default [] (row_data r))))).
Proof.
  split; [vm_compute; reflexivity|].
  apply (Has_Get_agree (codec := raw_keys) "bar" sample). vm_compute; reflexivity.
Defined.

Lemma List_Has_agree_sample :
  serving tidy_foo = true
  ∧ ∃ l, result (List tidy_foo) = Some (l, None)
         ∧ (∀ n, n ∈ l → result (Has n tidy_foo) = Some (true, None))
         ∧ (∀ n, result (Has n tidy_foo) = Some (true, None) → n ∈ l).
Proof.
  split; [vm_compute; reflexivity|].
  destruct (List_Has_agree tidy_foo
              [ {| row_name := Some "bar"; row_data := Some [x08; x02] |};
                {| row_name := Some "baz"; row_data := None |};
                {| row_name := Some "foo"; row_data := Some [x08; x01] |} ])
    as (l & HL & Hsound & Hall); [vm_compute; reflexivity ..|].
  exists l. split; [exact HL|]. split; [exact Hsound|].
  apply Hall. vm_compute; reflexivity.
Defined.

Lemma List_after_Delete_sample :
  serving sample_foo = true
  ∧ ∃ l, result (List sample_foo) = Some (l, None)
         ∧ result (List (left_by (Delete "bar" sample_foo) sample_foo))
           = Some (filter (λ m, m ≠ "bar") l, None).
Proof.
  split; [vm_compute; reflexivity|].
  apply (List_after_Delete "bar" sample_foo
           (left_by (Delete "bar" sample_foo) sample_foo) None);
    vm_compute; reflexivity.
Defined.

Lemma List_after_Put_sample :
  serving tidy = true
  ∧ ∃ l l1, result (List tidy) = Some (l, None)
            ∧ result (List tidy_foo) = Some (l1, None)
            ∧ ("foo" ∉ l)
            ∧ l1 ≡ₚ "foo" :: l.
Proof.
  split; [vm_compute; reflexivity|].
  apply (List_after_Put (codec := raw_keys) "foo" (Some [x01]) tidy tidy_foo
           [ {| row_name := Some "bar"; row_data := Some [x08; x02] |};
             {| row_name := Some "baz"; row_data := None |} ]);
    vm_compute; reflexivity.
Defined.

Lemma calls_other_tables_sample :
  calls (codec := raw_keys)
    [CallDelete "bar"; CallPut "Qm" (Some [x01]); CallList] shared
  = Ret () (left_by (calls (codec := raw_keys)
                       [CallDelete "bar"; CallPut "Qm" (Some [x01]); CallList] shared)
              shared)
  ∧ rows_of "blocks"
      (left_by (calls (codec := raw_keys)
                  [CallDelete "bar"; CallPut "Qm" (Some [x01]); CallList] shared) shared)
    = rows_of "blocks" shared.
Proof.
  split; [vm_compute; reflexivity|].
  apply (calls_other_tables (codec := raw_keys)
           [CallDelete "bar"; CallPut "Qm" (Some [x01]); CallList] shared);
    [vm_compute; reflexivity | discriminate].
Defined.

Lemma calls_keep_names_unique_sample :
  ∃ rows', stored (left_by (calls (codec := raw_keys)
                              [CallPut "foo" (Some [x01]); CallPut "foo" (Some [x02]);
                               CallDelete "bar"; CallPut "bar" (Some [x03])] sample)
                     sample)
           = Some rows'
           ∧ NoDup (names rows').
Proof.
  apply (calls_keep_names_unique (codec := raw_keys)
           [CallPut "foo" (Some [x01]); CallPut "foo" (Some [x02]);
            CallDelete "bar"; CallPut "bar" (Some [x03])] sample _
           [ {| row_name := Some "bar"; row_data := Some [x08; x02] |};
             {| row_name := None; row_data := Some [x08; x03] |} ]);
    [vm_compute; reflexivity | vm_compute; reflexivity
    | apply (bool_decide_unpack _); vm_compute; exact I].
Defined.

Lemma reads_change_nothing_sample :
  database (left_by (Has "bar" (sample_broken 1)) (sample_broken 1))
  = database (sample_broken 1)
  ∧ database (left_by (Get (codec := raw_keys) "bar" sample_timeout) sample_timeout)
    = database sample_timeout
  ∧ database (left_by (List sample) sample) = database sample.
Proof.
  split; [|split].
  - apply (proj1 (reads_change_nothing (codec := raw_keys) "bar" (sample_broken 1) _)
             (true, Some (Errorf "connection reset"))).
    vm_compute; reflexivity.
  - apply (proj1 (proj2 (reads_change_nothing (codec := raw_keys) "bar"
                           sample_timeout _))
             (None, Some (Errorf "timeout"))).
    vm_compute; reflexivity.
  - apply (proj2 (proj2 (reads_change_nothing (codec := raw_keys) "bar" sample _))
             (["bar"], None)).
    vm_compute; reflexivity.
Defined.

Lemma errors_change_nothing_sample :
  unbroken sample = true
  ∧ unbroken sample_timeout = true
  ∧ database (left_by (Put (codec := raw_keys) "bar" (Some [x01]) sample) sample)
    = database sample
  ∧ database (left_by (Delete "bar" sample_timeout) sample_timeout)
    = database sample_timeout.
Proof.
  split; [vm_compute; reflexivity|]. split; [vm_compute; reflexivity|]. split.
  - apply (proj1 (errors_change_nothing (codec := raw_keys) "bar" (Some [x01])
                    sample _ ErrKeyExists eq_refl)).
    vm_compute; reflexivity.
  - apply (proj2 (errors_change_nothing (codec := raw_keys) "bar" (Some [x01])
                    sample_timeout _ (Errorf "timeout") eq_refl)).
    vm_compute; reflexivity.
Defined.

Lemma requests_sent_sample :
  requests (left_by (Has "bar" sample) sample)
  = [(sql_Has "keys", [VText "bar"])]
  ∧ length (requests sample_foo) = 2.
Proof.
  destruct (requests_sent (codec := raw_keys) "bar" (Some [x01]) sample
              (left_by (Has "bar" sample) sample)) as (HH & _).
  destruct (requests_sent (codec := raw_keys) "foo" (Some [x01]) sample sample_foo)
    as (_ & _ & _ & _ & HP).
  split.
  - apply (HH (true, None)). vm_compute; reflexivity.
  - apply (HP None); [vm_compute; reflexivity | reflexivity].
Defined.

Lemma calls_never_panic_sample :
  ∃ k', calls (codec := raw_keys)
          [CallPut "" (Some [x02]); CallPut "foo" (Some [x01]);
           CallClose; CallGet "foo"; CallList]
          sample_timeout
        = Ret () k'
        ∧ is_Some (pool k').
Proof.
  apply (calls_never_panic (codec := raw_keys)
           [CallPut "" (Some [x02]); CallPut "foo" (Some [x01]);
            CallClose; CallGet "foo"; CallList]
           sample_timeout);
    [vm_compute; reflexivity | vm_compute; lia | vm_compute; eauto].
Defined.

Lemma calls_keep_serving_sample :
  ∃ k', calls (codec := raw_keys)
          [CallPut "foo" (Some [x01]); CallPut "" (Some [x01]); CallGet "nope";
           CallDelete "bar"; CallPgxPool; CallHas "bar"; CallList] sample
        = Ret () k'
        ∧ serving k' = true.
Proof.
  apply (calls_keep_serving (codec := raw_keys)
           [CallPut "foo" (Some [x01]); CallPut "" (Some [x01]); CallGet "nope";
            CallDelete "bar"; CallPgxPool; CallHas "bar"; CallList] sample);
    vm_compute; reflexivity.
Defined.

Lemma Put_on_no_rows_sample :
  ∃ k1, Put (codec := raw_keys) "bar" (Some [x09]) sample_no_rows = Ret None k1
        ∧ stored k1
          = Some (upsert "bar" [x08; x09]
                    [ {| row_name := Some "bar"; row_data := Some [x08; x02] |};
                      {| row_name := None; row_data := Some [x08; x03] |} ])
        ∧ ∃ out k2, Get (codec := raw_keys) "bar" k1 = Ret (Some out, None) k2
                    ∧ Equals (PrivKeyCodec := raw_keys) out [x09] = true.
Proof.
  apply (Put_on_no_rows (round_trip := raw_keys_round_trip)
           "bar" [x09] [x08; x09] sample_no_rows
           {| tables := tables sample_pool; closed := false;
              faults := [Some (Refused ErrNoRows)]; issued := [] |});
    [reflexivity | reflexivity | reflexivity | vm_compute; reflexivity
    | discriminate | vm_compute; reflexivity].
Defined.

Lemma Put_on_failed_check_sample :
  ∃ k1, Put (codec := raw_keys) "foo" None sample_timeout
        = Ret (Some (Errorf "timeout")) k1
        ∧ requests k1 = (sql_Has "keys", [VText "foo"]) :: requests sample_timeout
        ∧ database k1 = database sample_timeout.
Proof.
  apply (Put_on_failed_check (codec := raw_keys) "foo" None sample_timeout
           {| tables := tables sample_pool; closed := false;
              faults := [Some (Refused (Errorf "timeout"))]; issued := [] |}
           (Errorf "timeout") []);
    [reflexivity | reflexivity | reflexivity | discriminate.. ].
Defined.

Lemma Put_on_broken_check_sample :
  (∃ e' k1, Has "bar" (sample_broken 1) = Ret (true, Some e') k1)
  ∧ ∃ k1, Put (codec := raw_keys) "bar" (Some [x09]) (sample_broken 1)
          = Ret (Some ErrKeyExists) k1
          ∧ requests k1 = (sql_Has "keys", [VText "bar"]) :: requests (sample_broken 1)
          ∧ database k1 = database (sample_broken 1).
Proof.
  apply (Put_on_broken_check (codec := raw_keys) "bar" (Some [x09]) (sample_broken 1)
           {| tables := tables sample_pool; closed := false;
              faults := [Some (Broken 1 (Errorf "connection reset"))]; issued := [] |}
           0 (Errorf "connection reset") []
           [ {| row_name := Some "bar"; row_data := Some [x08; x02] |};
             {| row_name := None; row_data := Some [x08; x03] |} ]);
    [reflexivity | reflexivity | reflexivity | vm_compute; reflexivity
    | discriminate | apply (bool_decide_unpack _); vm_compute; exact I].
Defined.

Lemma List_on_broken_rows_sample :
  ∃ k', List {| table := "keys";
                pool := Some {| tables := tables tidy_pool; closed := false;
                                faults := [Some (Broken 1 (Errorf "connection reset"))];
                                issued := [] |} |}
        = Ret (["bar"], None) k'
        ∧ database k' = Some (tables tidy_pool).
Proof.
  apply (List_on_broken_rows
           {| table := "keys";
              pool := Some {| tables := tables tidy_pool; closed := false;
                              faults := [Some (Broken 1 (Errorf "connection reset"))];
                              issued := [] |} |}
           {| tables := tables tidy_pool; closed := false;
              faults := [Some (Broken 1 (Errorf "connection reset"))]; issued := [] |}
           1 (Errorf "connection reset") []
           [ {| row_name := Some "bar"; row_data := Some [x08; x02] |};
             {| row_name := Some "baz"; row_data := None |} ]);
    [reflexivity | reflexivity | reflexivity | vm_compute; reflexivity].
Defined.

Lemma List_reaches_sample :
  ∃ k', List tidy_foo = Ret (["bar"; "baz"; "foo"], None) k'
        ∧ stored k' = stored tidy_foo.
Proof.
  destruct (List_reaches tidy_foo
              [ {| row_name := Some "bar"; row_data := Some [x08; x02] |};
                {| row_name := Some "baz"; row_data := None |};
                {| row_name := Some "foo"; row_data := Some [x08; x01] |} ])
    as (l & k' & HL & Hstored & _ & Hall & _); [vm_compute; reflexivity ..|].
  exists k'. rewrite HL, Hstored. rewrite (Hall eq_refl). split; reflexivity.
Defined.

Lemma writes_on_lost_reply_sample :
  (∃ k1, Delete "bar" (sample_broken 0) = Ret (Some (Errorf "connection reset")) k1
         ∧ stored k1 = Some [ {| row_name := None; row_data := Some [x08; x03] |} ])
  ∧ ∃ k1, Put (codec := raw_keys) "foo" (Some [x01])
            {| table := "keys";
               pool := Some {| tables := tables sample_pool; closed := false;
                               faults := [None; Some (Broken 0 (Errorf "connection reset"))];
                               issued := [] |} |}
          = Ret (Some (Errorf "connection reset")) k1
          ∧ stored k1 = stored sample_foo
          ∧ ∃ k2, Put (codec := raw_keys) "foo" (Some [x01]) k1
                  = Ret (Some ErrKeyExists) k2.
Proof.
  split.
  - apply (proj1 (writes_on_lost_reply (codec := raw_keys) "bar" [x01] [x08; x01]
                    (sample_broken 0)
                    {| tables := tables sample_pool; closed := false;
                       faults := [Some (Broken 0 (Errorf "connection reset"))];
                       issued := [] |}
                    0 (Errorf "connection reset")
                    [ {| row_name := Some "bar"; row_data := Some [x08; x02] |};
                      {| row_name := None; row_data := Some [x08; x03] |} ]
                    eq_refl eq_refl eq_refl)).
    reflexivity.
  - apply (proj2 (writes_on_lost_reply (codec := raw_keys) "foo" [x01] [x08; x01]
                    {| table := "keys";
                       pool := Some {| tables := tables sample_pool; closed := false;
                                       faults := [None; Some (Broken 0 (Errorf "connection reset"))];
                                       issued := [] |} |}
                    {| tables := tables sample_pool; closed := false;
                       faults := [None; Some (Broken 0 (Errorf "connection reset"))];
                       issued := [] |}
                    0 (Errorf "connection reset")
                    [ {| row_name := Some "bar"; row_data := Some [x08; x02] |};
                      {| row_name := None; row_data := Some [x08; x03] |} ]
                    eq_refl eq_refl eq_refl));
      [reflexivity | discriminate
      | apply (bool_decide_unpack _); vm_compute; exact I
      | vm_compute; reflexivity].
Defined.

Lemma TestKeystoreBasics_green_sample :
  ∃ k', TestKeystoreBasics (codec := raw_keys) [x01] [x02] [x03] [x04] test_keystore
        = Ret None k'.
Proof.
  apply (TestKeystoreBasics_green (round_trip := raw_keys_round_trip)
           [x01] [x02] [x03] [x04] [x08; x01] [x08; x02] [x08; x03] [x08; x04]
           test_keystore);
    vm_compute; reflexivity.
Defined.
